(** * FutureNCCL and ProcessGroupNCCL (torch/lib/c10d/ProcessGroupNCCL.hpp)

    A shallow embedding of the continuation future that
    [ProcessGroupNCCL::WorkNCCL::getFuture] hands out, together with the
    small part of the CUDA stream and event machinery its member
    functions call.  Host code is written in a state-and-exception monad
    over a [World]; the device is a set of FIFO streams that make
    progress on their own. *)

From stdpp Require Import gmap strings list.
From Stdlib Require Import ZArith Lia.

Local Open Scope nat_scope.

(** ** Values, errors and exceptions *)

(** [at::IValue], reduced to the tags the future distinguishes: the
    default-constructed value is [IVNone] ([isNone()] holds of it), the
    others carry a payload. *)
Inductive IValue :=
| IVNone
| IVInt (z : Z)
| IVTensorList (ts : list Z).

Definition isNone (v : IValue) : bool :=
  match v with IVNone => true | _ => false end.

(** [at::TypePtr]; [then] receives one and does not look at it. *)
Inductive TypePtr := ListOfTensorType | AnyType.

(** [c10::ivalue::Future::FutureError], built from a message. *)
Record FutureError := mkFutureError { error_msg : string }.

(** What C++ code can throw here.  [InternalAssertError] is the
    [c10::Error] of a failed [TORCH_INTERNAL_ASSERT], [C10Error] the one
    of [C10_THROW_ERROR(Error, ...)], [CapabilityError] what an
    unsupported operation of the process group reports; [NonStdThrow] is
    a thrown object whose type does not derive from [std::exception]. *)
Inductive exn :=
| FutureErrorExn (err : FutureError)
| InternalAssertError (msg : string)
| C10Error (msg : string)
| StdException (msg : string)
| CapabilityError (op : string)
| NonStdThrow (tag : Z).

(** [e.what()] for what a [catch (const std::exception& e)] handler
    receives; [None] when the handler does not match. *)
Definition what (e : exn) : option string :=
  match e with
  | FutureErrorExn err => Some (error_msg err)
  | InternalAssertError msg => Some msg
  | C10Error msg => Some msg
  | StdException msg => Some msg
  | CapabilityError op => Some op
  | NonStdThrow _ => None
  end.

(** [cudaError_t], as far as [completed] tells codes apart. *)
Inductive cudaError_t :=
| cudaSuccess
| cudaErrorNotReady
| cudaErrorOther (code : Z).

Definition cudaError_eqb (a b : cudaError_t) : bool :=
  match a, b with
  | cudaSuccess, cudaSuccess => true
  | cudaErrorNotReady, cudaErrorNotReady => true
  | cudaErrorOther x, cudaErrorOther y => Z.eqb x y
  | _, _ => false
  end.

(** ** Streams, events and the device *)

Abbreviation DeviceIndex := Z (only parsing).
Abbreviation StreamId := (Z * nat)%type (only parsing).
Abbreviation EventId := nat (only parsing).
Abbreviation Kernel := nat (only parsing).

(** Modelled from the spec: one entry of a stream's queue.  A wait
    names the record it waits for: the stream and the queue position of
    that record. *)
Inductive Op :=
| OpWait (s : StreamId) (p : nat)
| OpRecord (e : EventId)
| OpKernel (k : Kernel).

(** Modelled from the spec: the CUDA runtime state, which the header
    only uses through [at::cuda::CUDAEvent], [c10::cuda::CUDAStream] and
    [c10::OptionalStreamGuard].  A Completion Marker is "a device-side
    event recording that a stream has reached a given point"; it is
    satisfied "once the stream reaches that point", and streams are FIFO.
    [queues] is what was issued to each stream, [progress_] how much of
    it the device has executed, [events] the latest record of each
    event, [faults] the error code a query of a broken event returns. *)
Record World := mkWorld {
  current_device : DeviceIndex;
  current_streams : gmap Z (Z * nat);
  queues : gmap (Z * nat) (list Op);
  progress_ : gmap (Z * nat) nat;
  events : gmap nat (Z * nat * nat);
  faults : gmap nat Z;
  pool_next : nat;
  next_event : EventId
}.

Definition queue (w : World) (s : StreamId) : list Op :=
  default [] (queues w !! s).

Definition progress (w : World) (s : StreamId) : nat :=
  default 0 (progress_ w !! s).

Definition set_queue (s : StreamId) (q : list Op) (w : World) : World :=
  mkWorld (current_device w) (current_streams w) (<[s := q]> (queues w))
          (progress_ w) (events w) (faults w) (pool_next w) (next_event w).

Definition set_progress (s : StreamId) (n : nat) (w : World) : World :=
  mkWorld (current_device w) (current_streams w) (queues w)
          (<[s := n]> (progress_ w)) (events w) (faults w) (pool_next w)
          (next_event w).

Definition set_event (e : EventId) (m : StreamId * nat) (w : World) : World :=
  mkWorld (current_device w) (current_streams w) (queues w) (progress_ w)
          (<[e := m]> (events w)) (faults w) (pool_next w) (next_event w).

Definition set_current (d : DeviceIndex) (cs : gmap Z (Z * nat))
    (w : World) : World :=
  mkWorld d cs (queues w) (progress_ w) (events w) (faults w) (pool_next w)
          (next_event w).

Definition set_pool_next (n : nat) (w : World) : World :=
  mkWorld (current_device w) (current_streams w) (queues w) (progress_ w)
          (events w) (faults w) n (next_event w).

Definition set_next_event (n : EventId) (w : World) : World :=
  mkWorld (current_device w) (current_streams w) (queues w) (progress_ w)
          (events w) (faults w) (pool_next w) n.

Definition enqueue (s : StreamId) (op : Op) (w : World) : World :=
  set_queue s (queue w s ++ [op]) w.

(** Modelled from the spec: a marker is satisfied "once the stream
    reaches that point": the record at position [p] of stream [s] has
    been executed. *)
Definition marker_done (w : World) (m : StreamId * nat) : bool :=
  m.2 <? progress w m.1.

(** Modelled from the spec: the state of an event is that of its
    latest record; an event that was never recorded counts as
    satisfied. *)
Definition event_done (w : World) (e : EventId) : bool :=
  match events w !! e with
  | None => true
  | Some m => marker_done w m
  end.

(** Modelled from the spec: what a stream may execute next. *)
Definition op_enabled (w : World) (op : Op) : bool :=
  match op with
  | OpWait s p => marker_done w (s, p)
  | OpRecord _ => true
  | OpKernel _ => true
  end.

(** Modelled from the spec: "stream FIFO semantics".  Stream [s]
    executes the next entry of its queue, when it has one and it is not
    a wait for a record that is still outstanding. *)
Definition dev_step (s : StreamId) (w : World) : option World :=
  match queue w s !! progress w s with
  | Some op =>
      if op_enabled w op then Some (set_progress s (S (progress w s)) w)
      else None
  | None => None
  end.

(** Modelled from the spec: any amount of device progress. *)
Inductive dev_steps : World -> World -> Prop :=
| dev_steps_refl w : dev_steps w w
| dev_steps_step w s w1 w2 :
    dev_step s w = Some w1 -> dev_steps w1 w2 -> dev_steps w w2.

(** Modelled from the spec: the device follows a schedule; a stream
    that cannot move is skipped. *)
Fixpoint dev_run (sched : list StreamId) (w : World) : World :=
  match sched with
  | [] => w
  | s :: rest => dev_run rest (default w (dev_step s w))
  end.

(** ** Host computations *)

Inductive Result (A : Type) :=
| Ok (a : A) (w : World)
| Throw (e : exn) (w : World)
| Undefined.
Arguments Ok {A} a w.
Arguments Throw {A} e w.
Arguments Undefined {A}.

Definition Host (A : Type) : Type := World -> Result A.

Definition ret {A} (a : A) : Host A := fun w => Ok a w.

Definition bind {A B} (m : Host A) (k : A -> Host B) : Host B :=
  fun w =>
    match m w with
    | Ok a w1 => k a w1
    | Throw e w1 => Throw e w1
    | Undefined => Undefined
    end.

Definition throw {A} (e : exn) : Host A := fun w => Throw e w.

Definition undefined {A} : Host A := fun _ => Undefined.

Definition modify (f : World -> World) : Host unit := fun w => Ok tt (f w).

Definition gets {A} (f : World -> A) : Host A := fun w => Ok (f w) w.

#[global] Instance Host_ret : MRet Host := @ret.
#[global] Instance Host_bind : MBind Host := fun A B k m => bind m k.

(** [try { body } catch (const std::exception& e) { handler(e.what()) }] *)
Definition try_catch_std {A} (body : Host A) (handler : string -> Host A)
    : Host A :=
  fun w =>
    match body w with
    | Ok a w1 => Ok a w1
    | Throw e w1 =>
        match what e with
        | Some msg => handler msg w1
        | None => Throw e w1
        end
    | Undefined => Undefined
    end.

(** [TORCH_INTERNAL_ASSERT(cond, msg)] *)
Definition TORCH_INTERNAL_ASSERT (cond : bool) (msg : string) : Host unit :=
  if cond then ret tt else throw (InternalAssertError msg).

(** [v[i]] on a [std::vector]: out of range is undefined behaviour. *)
Definition vector_at {A} (v : list A) (i : nat) : Host A :=
  match v !! i with
  | Some x => ret x
  | None => undefined
  end.

(** Modelled from the spec: the current stream of a device; a device
    whose current stream was never changed runs on its default stream,
    number 0. *)
Definition current_stream (w : World) (d : DeviceIndex) : StreamId :=
  default (d, 0) (current_streams w !! d).

(** Modelled from the spec: [at::cuda::getCurrentCUDAStream(device)]. *)
Definition getCurrentCUDAStream (d : DeviceIndex) : Host StreamId :=
  gets (fun w => current_stream w d).

(** Modelled from the spec: [at::cuda::getStreamFromPool(device)], "a
    fresh device execution stream": pool streams are numbered from 1 and
    handed out once each. *)
Definition getStreamFromPool (d : DeviceIndex) : Host StreamId :=
  fun w => Ok (d, S (pool_next w)) (set_pool_next (S (pool_next w)) w).

(** Modelled from the spec: [std::make_shared<std::vector<CUDAEvent>>(n)],
    [n] new events, none of them recorded yet.  The shared vector is
    represented by the identities of its events, so every holder of the
    pointer sees the same events. *)
Definition make_events (n : nat) : Host (list EventId) :=
  fun w => Ok (seq (next_event w) n) (set_next_event (next_event w + n) w).

(** Modelled from the spec: [CUDAEvent::block(stream)], the stream waits
    for the latest record of the event; nothing to wait for when the
    event was never recorded. *)
Definition CUDAEvent_block (e : EventId) (stream : StreamId) : Host unit :=
  modify (fun w =>
    match events w !! e with
    | Some (s, p) => enqueue stream (OpWait s p) w
    | None => w
    end).

(** Modelled from the spec: [CUDAEvent::record(stream)], the event now
    marks the current end of the stream's queue. *)
Definition CUDAEvent_record (e : EventId) (stream : StreamId) : Host unit :=
  modify (fun w =>
    set_event e (stream, length (queue w stream))
              (enqueue stream (OpRecord e) w)).

(** Modelled from the spec: what [cudaEventQuery(event)] returns: the
    error of a broken event, else whether the marker is satisfied. *)
Definition event_status (w : World) (e : EventId) : cudaError_t :=
  match faults w !! e with
  | Some code => cudaErrorOther code
  | None => if event_done w e then cudaSuccess else cudaErrorNotReady
  end.

(** Modelled from the spec: [cudaEventQuery(event)]. *)
Definition cudaEventQuery (e : EventId) : Host cudaError_t :=
  gets (fun w => event_status w e).

(** Modelled from the spec: the scope of a
    [c10::OptionalStreamGuard{stream}].  Inside, the current device is
    the stream's and the stream is that device's current stream; leaving
    the scope, normally or by an exception, makes the stream that was
    current on that device current again, and then the device that was
    current. *)
Definition enter_guard (stream : StreamId) (w : World) : World :=
  set_current stream.1 (<[stream.1 := stream]> (current_streams w)) w.

(** Modelled from the spec: the end of the guard's scope. *)
Definition leave_guard (saved : World) (stream : StreamId) (w1 : World)
    : World :=
  set_current (current_device saved)
              (<[stream.1 := current_stream saved stream.1]>
                 (current_streams w1))
              w1.

(** Modelled from the spec: a block of code under the guard. *)
Definition with_stream_guard {A} (stream : StreamId) (body : Host A)
    : Host A :=
  fun w =>
    match body (enter_guard stream w) with
    | Ok a w1 => Ok a (leave_guard w stream w1)
    | Throw e w1 => Throw e (leave_guard w stream w1)
    | Undefined => Undefined
    end.

(** Modelled from the spec: device work launched without naming a
    stream goes to the current stream of the current device. *)
Definition launch (k : Kernel) : Host unit :=
  fun w =>
    (s ← getCurrentCUDAStream (current_device w);
     modify (enqueue s (OpKernel k))) w.

(** Modelled from the spec: several launches in a row. *)
Fixpoint launch_all (ks : list Kernel) : Host unit :=
  match ks with
  | [] => ret tt
  | k :: rest => launch k;; launch_all rest
  end.

(** A [std::function<at::IValue(void)>] is opaque; it is represented by
    what running it does: the device work it launches on the current
    stream, then the value it returns or the object it throws. *)
Record Callback := mkCallback {
  cb_kernels : list Kernel;
  cb_result : IValue + exn
}.

(** The call [cb()]. *)
Definition run_callback (cb : Callback) : Host IValue :=
  launch_all (cb_kernels cb);;
  match cb_result cb with
  | inl v => ret v
  | inr e => throw e
  end.

(** ** FutureNCCL *)

(** The four data members.  [cudaEvents_] is the shared vector of
    events; [error_] is a [c10::optional<FutureError>]. *)
Record FutureNCCL := mkFutureNCCL {
  value_ : IValue;
  deviceIndex_ : DeviceIndex;
  cudaEvents_ : list EventId;
  error_ : option FutureError
}.

Definition single_device_msg : string :=
  "FutureNCCL only supports single-process single-device mode.".

(** [FutureNCCL(value, deviceIndex, cudaEvents)], used by [getFuture]. *)
Definition FutureNCCL_of_value (value : IValue) (deviceIndex : DeviceIndex)
    (cudaEvents : list EventId) : Host FutureNCCL :=
  TORCH_INTERNAL_ASSERT (length cudaEvents =? 1) single_device_msg;;
  mret (mkFutureNCCL value deviceIndex cudaEvents None).

(** [FutureNCCL(deviceIndex, cudaEvents)], used by [then]: the value is
    left default-constructed. *)
Definition FutureNCCL_of_events (deviceIndex : DeviceIndex)
    (cudaEvents : list EventId) : Host FutureNCCL :=
  TORCH_INTERNAL_ASSERT (length cudaEvents =? 1) single_device_msg;;
  mret (mkFutureNCCL IVNone deviceIndex cudaEvents None).

Definition hasValue (f : FutureNCCL) : bool := negb (isNone (value_ f)).

(** [wait()]: the error first, then the wait of the current stream. *)
Definition wait (f : FutureNCCL) : Host unit :=
  match error_ f with
  | Some err => throw (FutureErrorExn err)
  | None =>
      stream ← getCurrentCUDAStream (deviceIndex_ f);
      e ← vector_at (cudaEvents_ f) 0;
      CUDAEvent_block e stream
  end.

Definition has_value_msg : string :=
  ("Attempting to set value of a FutureNCCL which has a value."
   ++ "FutureNCCL's value was internally set to NCCL collective's "
   ++ "outputs or the return value of the callback.")%string.

(** [markCompleted] and [setError] update the object they are called
    on; here they return it. *)
Definition markCompleted (f : FutureNCCL) (value : IValue) : Host FutureNCCL :=
  TORCH_INTERNAL_ASSERT (isNone (value_ f)) has_value_msg;;
  mret (mkFutureNCCL value (deviceIndex_ f) (cudaEvents_ f) (error_ f)).

Definition setError (f : FutureNCCL) (err : string) : FutureNCCL :=
  mkFutureNCCL (value_ f) (deviceIndex_ f) (cudaEvents_ f)
               (Some (mkFutureError err)).

Definition value_is_none_msg : string := "FutureNCCL's value is None.".

(** [value()] and [constValue()] have the same body. *)
Definition value (f : FutureNCCL) : Host IValue :=
  TORCH_INTERNAL_ASSERT (hasValue f) value_is_none_msg;;
  wait f;;
  mret (value_ f).

Definition constValue (f : FutureNCCL) : Host IValue :=
  TORCH_INTERNAL_ASSERT (hasValue f) value_is_none_msg;;
  wait f;;
  mret (value_ f).

(** [addCallbackWithStream(callback, stream, thenFutCudaEvents)].  The
    callback is a host computation; what it returns stands for what it
    leaves in the objects it captured by reference. *)
Definition addCallbackWithStream {A} (f : FutureNCCL) (callback : Host A)
    (stream : StreamId) (thenFutCudaEvents : list EventId) : Host A :=
  e ← vector_at (cudaEvents_ f) 0;
  CUDAEvent_block e stream;;
  with_stream_guard stream (
    r ← callback;
    e' ← vector_at thenFutCudaEvents 0;
    CUDAEvent_record e' stream;;
    mret r).

Definition addCallback_msg : string :=
  "FutureNCCL uses addCallbackWithStream instead of addCallback.".

(** [addCallback(callback)]: the callback is not used. *)
Definition addCallback (f : FutureNCCL) (callback : Host unit) : Host unit :=
  throw (C10Error addCallback_msg).

(** The lambda that [then] binds to the callback: it fills [fut], which
    it captured by reference. *)
Definition then_lambda (fut : FutureNCCL) (cb : Callback) : Host FutureNCCL :=
  try_catch_std
    (v ← run_callback cb; markCompleted fut v)
    (fun msg => mret (setError fut msg)).

(** [then(callback, type)]; [then] is a keyword here. *)
Definition then_ (f : FutureNCCL) (callback : Callback) (type : TypePtr)
    : Host FutureNCCL :=
  stream ← getStreamFromPool (deviceIndex_ f);
  thenFutCudaEvents ← make_events 1;
  fut ← FutureNCCL_of_events (deviceIndex_ f) thenFutCudaEvents;
  addCallbackWithStream f (then_lambda fut callback) stream thenFutCudaEvents.

(** [completed()]: [ret != cudaErrorNotReady || ret == cudaSuccess]. *)
Definition completed (f : FutureNCCL) : Host bool :=
  match error_ f with
  | Some _ => mret true
  | None =>
      e ← vector_at (cudaEvents_ f) 0;
      r ← cudaEventQuery e;
      mret (negb (cudaError_eqb r cudaErrorNotReady)
            || cudaError_eqb r cudaSuccess)
  end.

(** An empty world: nothing issued, nothing recorded, device 0 current. *)
Definition empty_world : World :=
  mkWorld 0%Z ∅ ∅ ∅ ∅ ∅ 0 0.

(** ** Chains of [then] calls *)

(** One call of a chain: what the device does before the host gets to
    the call, and the arguments of the call. *)
Record ThenCall := mkThenCall {
  before : list StreamId;
  callback : Callback;
  type : TypePtr
}.

(** [f.then(c1).then(c2)...]: every call is made on the future the
    previous one returned, while the device keeps running. *)
Fixpoint then_chain (f : FutureNCCL) (calls : list ThenCall)
    : Host (list FutureNCCL) :=
  match calls with
  | [] => mret []
  | c :: rest =>
      modify (dev_run (before c));;
      fut ← then_ f (callback c) (type c);
      futs ← then_chain fut rest;
      mret (fut :: futs)
  end.

(** The callback returns, or throws something a
    [catch (const std::exception&)] handler receives. *)
Definition returns_or_std (cb : Callback) : Prop :=
  match cb_result cb with
  | inl _ => True
  | inr e => is_Some (what e)
  end.

(** The waits that [CUDAEvent::block] issues for a marker. *)
Definition wait_ops (m : option (StreamId * nat)) : list Op :=
  match m with
  | Some (s, p) => [OpWait s p]
  | None => []
  end.

(** A marker as a wait captures it: nothing to wait for, or a record. *)
Definition marker_satisfied (w : World) (m : option (StreamId * nat)) : bool :=
  match m with
  | Some m => marker_done w m
  | None => true
  end.

(** The device has executed no more than was issued, and every wait it
    has passed was for a record it had executed; nothing was issued to a
    pool stream that was not handed out yet, and no such stream is
    current. *)
Definition consistent (w : World) : Prop :=
  (∀ s, progress w s ≤ length (queue w s)) ∧
  (∀ s j s' p, queue w s !! j = Some (OpWait s' p) → j < progress w s →
               p < progress w s') ∧
  (∀ s, pool_next w < s.2 → queue w s = []) ∧
  (∀ d, (current_stream w d).2 ≤ pool_next w).

(** [w'] is a later state of [w]: queues only grow at their end, the
    device only advances, the events that existed keep their record. *)
Definition evolves (w w' : World) : Prop :=
  (∀ s, queue w s `prefix_of` queue w' s) ∧
  (∀ s, progress w s ≤ progress w' s) ∧
  (∀ e, e < next_event w → events w' !! e = events w !! e) ∧
  next_event w ≤ next_event w' ∧
  pool_next w ≤ pool_next w'.

(** What one [then] call on [f], whose marker is [e], leaves behind
    when it is made in [w] and ends in [w1]: a new stream that holds
    the wait for the marker, then the callback's work, then the record
    of the new future's marker. *)
Definition then_post (f : FutureNCCL) (e : EventId) (ks : list Kernel)
    (w w1 : World) : Prop :=
  let s := (deviceIndex_ f, S (pool_next w)) in
  let waits := wait_ops (events w !! e) in
  queue w1 s
  = queue w s ++ waits ++ map OpKernel ks ++ [OpRecord (next_event w)] ∧
  (∀ s', s' ≠ s → queue w1 s' = queue w s') ∧
  progress_ w1 = progress_ w ∧
  events w1 =
    <[next_event w := (s, length (queue w s) + length waits + length ks)]>
      (events w) ∧
  faults w1 = faults w ∧
  current_device w1 = current_device w ∧
  (∀ d, current_stream w1 d = current_stream w d) ∧
  pool_next w1 = S (pool_next w) ∧
  next_event w1 = S (next_event w).

(** The world in which the callback of [addCallbackWithStream] starts:
    the wait is issued and the guard is in place. *)
Definition blocked_world (e : EventId) (stream : StreamId) (w : World)
    : World :=
  match events w !! e with
  | Some (s, p) => enqueue stream (OpWait s p) w
  | None => w
  end.

Definition guarded_world (e : EventId) (stream : StreamId) (w : World)
    : World :=
  enter_guard stream (blocked_world e stream w).

(** The marker [e_prev] of the parent was recorded before the call made
    in [wb], on another stream than [s], and is still its marker in [wN]. *)
Definition parent_recorded (wb wN : World) (e_prev : EventId) (s : StreamId)
    : Prop :=
  ∃ m, events wb !! e_prev = Some m ∧ events wN !! e_prev = Some m ∧
       queue wN m.1 !! m.2 = Some (OpRecord e_prev) ∧ m.1 ≠ s.

(** Call number [i] (from 0) of a chain that started in [w] and ended
    in [wN] was made on [fprev], in some world [wb], and returned [fi]. *)
Definition then_link (i : nat) (w wN : World) (fprev fi : FutureNCCL)
    (c : ThenCall) : Prop :=
  ∃ e_prev wb w1,
    cudaEvents_ fprev = [e_prev] ∧ cudaEvents_ fi = [next_event wb] ∧
    evolves w wb ∧ consistent wb ∧
    then_ fprev (callback c) (type c) wb = Ok fi w1 ∧
    then_post fprev e_prev (cb_kernels (callback c)) wb w1 ∧
    evolves w1 wN ∧
    (1 ≤ i →
     parent_recorded wb wN e_prev (deviceIndex_ fprev, S (pool_next wb))).





(** A check of [consistent] that runs. *)
Definition waits_passed (w : World) (s : StreamId) (q : list Op) : bool :=
  forallb (λ op, match op with
                 | OpWait s' p => p <? progress w s'
                 | _ => true
                 end)
          (take (progress w s) q).

Definition consistentb (w : World) : bool :=
  forallb (λ sn, sn.2 <=? length (queue w sn.1)) (map_to_list (progress_ w))
  && forallb (λ sq, waits_passed w sq.1 sq.2) (map_to_list (queues w))
  && forallb (λ sq, (sq.1.2 <=? pool_next w) || (length sq.2 =? 0))
             (map_to_list (queues w))
  && forallb (λ ds, ds.2.2 <=? pool_next w) (map_to_list (current_streams w)).

(** ** ProcessGroupNCCL *)

Definition NCCL_BLOCKING_WAIT : string := "NCCL_BLOCKING_WAIT".

(** The members of [WorkNCCL] that waiting looks at.  [blockingWait_]
    is a "clone of blockingWait_ from ProcessGroupNCCL". *)
Module WorkNCCL.
Record t := mk {
  devices_ : list DeviceIndex;
  cudaEvents_ : list EventId;
  blockingWait_ : bool;
  opTimeout_ : Z
}.
End WorkNCCL.

(** The members of [ProcessGroupNCCL] that construction sets. *)
Record ProcessGroupNCCL := mkProcessGroupNCCL {
  rank_ : Z;
  size_ : Z;
  ncclCommCounter_ : N;
  blockingWait_ : bool;
  opTimeout_ : Z
}.

(** The default member initializers of the header:
    [ncclCommCounter_{0}] and [blockingWait_ = false]. *)
Definition ProcessGroupNCCL_defaults (rank size : Z) (opTimeout : Z)
    : ProcessGroupNCCL :=
  mkProcessGroupNCCL rank size 0%N false opTimeout.

Section Environment.

(** How the text of the flag is read; the spec leaves it open. *)
Variable flag_selects : string → bool.

(** Modelled from the spec: [ProcessGroupNCCL::parseNcclBlockingWait],
    declared in the header and defined in ProcessGroupNCCL.cpp.  "An
    environment flag selects blocking-wait behavior process-wide at
    construction time; absent, non-blocking (device-side wait) is the
    default." *)
Definition parseNcclBlockingWait (env : gmap string string)
    (pg : ProcessGroupNCCL) : ProcessGroupNCCL :=
  match env !! NCCL_BLOCKING_WAIT with
  | Some v =>
      if flag_selects v
      then mkProcessGroupNCCL (rank_ pg) (size_ pg) (ncclCommCounter_ pg)
                              true (opTimeout_ pg)
      else pg
  | None => pg
  end.

(** Modelled from the spec: the constructor
    [ProcessGroupNCCL(store, rank, size, opTimeout)], defined in
    ProcessGroupNCCL.cpp; it reads the flag once. *)
Definition ProcessGroupNCCL_new (env : gmap string string)
    (rank size : Z) (opTimeout : Z) : ProcessGroupNCCL :=
  parseNcclBlockingWait env (ProcessGroupNCCL_defaults rank size opTimeout).

End Environment.

(** Modelled from the spec: the Work Handle that a collective of the
    group returns for [devices], with one marker per device. *)
Definition initWork (pg : ProcessGroupNCCL) (devices : list DeviceIndex)
    (cudaEvents : list EventId) : WorkNCCL.t :=
  WorkNCCL.mk devices cudaEvents (blockingWait_ pg) (opTimeout_ pg).

(** Modelled from the spec: [WorkNCCL::synchronizeStreams], "each
    device's current stream wait on this handle's markers". *)
Fixpoint synchronizeStreams (devices : list DeviceIndex)
    (cudaEvents : list EventId) : Host unit :=
  match devices, cudaEvents with
  | d :: ds, e :: es =>
      s ← getCurrentCUDAStream d;
      CUDAEvent_block e s;;
      synchronizeStreams ds es
  | _, _ => mret tt
  end.

(** Modelled from the spec: the blocking wait "actively blocks the
    calling thread (polling with bounded sleep) until completion, error,
    or timeout elapses, then raises on error or timeout".  [ticks] is
    what the device does during each sleep; the timeout elapses when
    they run out. *)
Fixpoint block_until_done (cudaEvents : list EventId)
    (ticks : list (list StreamId)) : Host bool :=
  fun w =>
    if forallb (event_done w) cudaEvents then Ok true w
    else match ticks with
         | [] => Throw (StdException "Operation timed out!") w
         | t :: rest => block_until_done cudaEvents rest (dev_run t w)
         end.

(** Modelled from the spec: [WorkNCCL::wait], section 4.4. *)
Definition WorkNCCL_wait (work : WorkNCCL.t) (ticks : list (list StreamId))
    : Host bool :=
  if WorkNCCL.blockingWait_ work
  then block_until_done (WorkNCCL.cudaEvents_ work) ticks
  else synchronizeStreams (WorkNCCL.devices_ work) (WorkNCCL.cudaEvents_ work);;
       mret true.

(** The waits that [synchronizeStreams], called in [w], issues to the
    stream [s]: one for each device whose current stream is [s] and
    whose marker was recorded, in the order of the devices. *)
Fixpoint sync_waits (w : World) (devices : list DeviceIndex)
    (cudaEvents : list EventId) (s : StreamId) : list Op :=
  match devices, cudaEvents with
  | d :: ds, e :: es =>
      (if decide (current_stream w d = s) then wait_ops (events w !! e)
       else [])
      ++ sync_waits w ds es s
  | _, _ => []
  end.

(** Modelled from the spec: [ProcessGroupNCCL::send], [recv] and
    [recvAnysource], declared in the header under "Unsupported Ops" and
    defined in ProcessGroupNCCL.cpp.  "Point-to-point send/receive and
    receive-from-any-source are explicitly unsupported in this core and
    must report a capability error"; "no attempt is made to degrade or
    emulate them through collectives already present". *)
Definition send (pg : ProcessGroupNCCL) (tensors : list Z)
    (dstRank tag : Z) : Host WorkNCCL.t :=
  throw (CapabilityError "send").

(** Modelled from the spec: [ProcessGroupNCCL::recv], as [send]. *)
Definition recv (pg : ProcessGroupNCCL) (tensors : list Z)
    (srcRank tag : Z) : Host WorkNCCL.t :=
  throw (CapabilityError "recv").

(** Modelled from the spec: [ProcessGroupNCCL::recvAnysource], as
    [send]. *)
Definition recvAnysource (pg : ProcessGroupNCCL) (tensors : list Z)
    (tag : Z) : Host WorkNCCL.t :=
  throw (CapabilityError "recvAnysource").

(** ** A small scenario *)

(** A collective has run a kernel on pool stream 1 of device 0 and has
    recorded event 0 behind it; [getFuture] wraps the output. *)
Definition nccl_world : World :=
  mkWorld 0%Z ∅ {[ (0%Z, 1) := [OpKernel 100; OpRecord 0] ]} ∅
          {[ 0 := ((0%Z, 1), 1) ]} ∅ 1 1.

Definition nccl_future : FutureNCCL :=
  mkFutureNCCL (IVTensorList [1%Z]) 0%Z [0] None.

(** A fresh future, as [then] creates it before the callback has run. *)
Definition unset_future : FutureNCCL := mkFutureNCCL IVNone 0%Z [0] None.

Definition negate_cb : Callback := mkCallback [11; 12] (inl (IVInt (-1))).
Definition none_cb : Callback := mkCallback [] (inl IVNone).
Definition failing_cb : Callback := mkCallback [21] (inr (StdException "boom")).
Definition foreign_cb : Callback := mkCallback [31] (inr (NonStdThrow 42)).

Definition demo_calls : list ThenCall :=
  [ mkThenCall [(0%Z, 1)] negate_cb ListOfTensorType;
    mkThenCall [(0%Z, 2); (0%Z, 1); (0%Z, 2)] failing_cb AnyType;
    mkThenCall [] negate_cb AnyType ].

(** The futures and the world at the end of the chain of the scenario,
    and a schedule that runs the three streams of the chain. *)
Definition demo_futures : list FutureNCCL :=
  match then_chain nccl_future demo_calls nccl_world with
  | Ok futs _ => futs
  | _ => []
  end.

Definition demo_chain_end : World :=
  match then_chain nccl_future demo_calls nccl_world with
  | Ok _ w => w
  | _ => empty_world
  end.

Definition demo_schedule : list StreamId :=
  [(0%Z, 2); (0%Z, 2); (0%Z, 2); (0%Z, 3); (0%Z, 3); (0%Z, 3);
   (0%Z, 4); (0%Z, 4); (0%Z, 4); (0%Z, 4)].

(** * Proofs *)

(** ** Reading a world after an update *)

Lemma queue_set_queue s q w s' :
  queue (set_queue s q w) s' = if decide (s = s') then q else queue w s'.
Proof.
  unfold queue, set_queue; simpl. rewrite lookup_insert.
  destruct (decide (s = s')); done.
Qed.

Lemma queue_enqueue s op w s' :
  queue (enqueue s op w) s' =
  if decide (s = s') then queue w s ++ [op] else queue w s'.
Proof. apply queue_set_queue. Qed.

Lemma progress_set_progress s n w s' :
  progress (set_progress s n w) s' =
  if decide (s = s') then n else progress w s'.
Proof.
  unfold progress, set_progress; simpl. rewrite lookup_insert.
  destruct (decide (s = s')); done.
Qed.

Lemma progress_eq w w' s :
  progress_ w' = progress_ w → progress w' s = progress w s.
Proof. unfold progress. by intros ->. Qed.

(** The world after launching [ks] on stream [s]. *)
Lemma launch_all_spec ks : ∀ w,
  ∃ w1, launch_all ks w = Ok tt w1 ∧
    let s := current_stream w (current_device w) in
    queue w1 s = queue w s ++ map OpKernel ks ∧
    (∀ s', s' ≠ s → queue w1 s' = queue w s') ∧
    progress_ w1 = progress_ w ∧ events w1 = events w ∧
    faults w1 = faults w ∧ current_device w1 = current_device w ∧
    current_streams w1 = current_streams w ∧ pool_next w1 = pool_next w ∧
    next_event w1 = next_event w.
Proof.
  induction ks as [|k ks IH]; intros w.
  - exists w. simpl. rewrite app_nil_r. by repeat split.
  - cbn [launch_all].
    set (s := current_stream w (current_device w)).
    destruct (IH (enqueue s (OpKernel k) w))
      as (w1 & Hrun & Hq & Hother & Hp & He & Hf & Hd & Hc & Hpool & Hn).
    exists w1. split.
    { unfold mbind, Host_bind, bind. unfold launch at 1.
      unfold mbind, Host_bind, bind, getCurrentCUDAStream, gets, modify.
      fold s. exact Hrun. }
    cbn zeta in *.
    change (current_stream (enqueue s (OpKernel k) w)
              (current_device (enqueue s (OpKernel k) w))) with s in Hq, Hother.
    rewrite queue_enqueue in Hq. rewrite decide_True in Hq by done.
    repeat split; try done.
    + rewrite Hq. simpl. by rewrite <- app_assoc.
    + intros s' Hne. rewrite Hother by done. rewrite queue_enqueue.
      by rewrite decide_False.
Qed.

Lemma addCallbackWithStream_unfold {A} f e (cb : Host A) stream e' w :
  cudaEvents_ f = [e] →
  addCallbackWithStream f cb stream [e'] w =
    match cb (guarded_world e stream w) with
    | Ok r w2 =>
        Ok r (leave_guard (blocked_world e stream w) stream
                (set_event e' (stream, length (queue w2 stream))
                   (enqueue stream (OpRecord e') w2)))
    | Throw ex w2 =>
        Throw ex (leave_guard (blocked_world e stream w) stream w2)
    | Undefined => Undefined
    end.
Proof.
  intros He. unfold addCallbackWithStream. rewrite He.
  unfold guarded_world, blocked_world.
  unfold mbind, Host_bind, bind, with_stream_guard, vector_at,
    CUDAEvent_block, modify. simpl.
  unfold mbind, Host_bind, bind.
  destruct (events w !! e) as [[s p]|]; simpl;
  match goal with |- context [cb ?w0] => destruct (cb w0) end; reflexivity.
Qed.

Lemma then_lambda_spec fut cb w :
  value_ fut = IVNone → returns_or_std cb →
  ∃ w1,
    launch_all (cb_kernels cb) w = Ok tt w1 ∧
    then_lambda fut cb w =
      Ok (mkFutureNCCL
            (match cb_result cb with inl v => v | inr _ => IVNone end)
            (deviceIndex_ fut) (cudaEvents_ fut)
            (match cb_result cb with
             | inl _ => error_ fut
             | inr ex => mkFutureError <$> what ex
             end)) w1.
Proof.
  intros Hv Hcb.
  destruct (launch_all_spec (cb_kernels cb) w) as (w1 & Hrun & _).
  exists w1. split; [done|].
  unfold then_lambda, try_catch_std, run_callback, mbind, Host_bind, bind.
  rewrite Hrun.
  unfold returns_or_std in Hcb. destruct (cb_result cb) as [v|ex].
  - unfold markCompleted. rewrite Hv. reflexivity.
  - destruct Hcb as [msg Hmsg]. unfold throw. rewrite Hmsg. simpl.
    unfold setError. by rewrite Hv.
Qed.

Lemma then_unfold f cb ty w :
  then_ f cb ty w =
    addCallbackWithStream f
      (then_lambda (mkFutureNCCL IVNone (deviceIndex_ f) [next_event w] None) cb)
      (deviceIndex_ f, S (pool_next w)) [next_event w]
      (set_next_event (next_event w + 1) (set_pool_next (S (pool_next w)) w)).
Proof. reflexivity. Qed.

Lemma queue_blocked_world e s w s' :
  queue (blocked_world e s w) s' =
  if decide (s = s') then queue w s ++ wait_ops (events w !! e)
  else queue w s'.
Proof.
  unfold blocked_world. destruct (events w !! e) as [[s0 p]|]; simpl.
  - apply queue_enqueue.
  - rewrite app_nil_r. by destruct (decide (s = s')) as [<-|].
Qed.

Lemma blocked_world_same e s w :
  progress_ (blocked_world e s w) = progress_ w ∧
  events (blocked_world e s w) = events w ∧
  faults (blocked_world e s w) = faults w ∧
  current_device (blocked_world e s w) = current_device w ∧
  current_streams (blocked_world e s w) = current_streams w ∧
  pool_next (blocked_world e s w) = pool_next w ∧
  next_event (blocked_world e s w) = next_event w.
Proof. unfold blocked_world. by destruct (events w !! e) as [[??]|]. Qed.

Lemma current_stream_guarded e s w :
  current_stream (guarded_world e s w) (current_device (guarded_world e s w)) = s.
Proof.
  unfold guarded_world, enter_guard, current_stream. simpl.
  by rewrite lookup_insert_eq.
Qed.

(** Leaving the guard gives every device the current stream it had. *)
Lemma current_stream_leave_guard saved s w1 d :
  current_streams w1 = <[s.1 := s]> (current_streams saved) →
  current_stream (leave_guard saved s w1) d = current_stream saved d.
Proof.
  intros Hc. unfold leave_guard, current_stream at 1. simpl. rewrite Hc.
  rewrite insert_insert_eq. destruct (decide (s.1 = d)) as [<-|Hne].
  - by rewrite lookup_insert_eq.
  - rewrite lookup_insert_ne by done. done.
Qed.

Lemma then_spec f e cb ty w :
  cudaEvents_ f = [e] → returns_or_std cb →
  ∃ w1,
    then_ f cb ty w =
      Ok (mkFutureNCCL
            (match cb_result cb with inl v => v | inr _ => IVNone end)
            (deviceIndex_ f) [next_event w]
            (match cb_result cb with
             | inl _ => None
             | inr ex => mkFutureError <$> what ex
             end)) w1 ∧
    then_post f e (cb_kernels cb) w w1.
Proof.
  intros He Hcb.
  rewrite then_unfold, (addCallbackWithStream_unfold _ e) by done.
  set (s := (deviceIndex_ f, S (pool_next w))).
  set (w2 := set_next_event _ _).
  destruct (then_lambda_spec
              (mkFutureNCCL IVNone (deviceIndex_ f) [next_event w] None)
              cb (guarded_world e s w2) eq_refl Hcb) as (w5 & Hrun & ->).
  destruct (launch_all_spec (cb_kernels cb) (guarded_world e s w2))
    as (w5' & Hrun' & Hq & Hother & Hp & Hev & Hf & Hd & Hc & Hpool & Hn).
  rewrite Hrun in Hrun'. injection Hrun' as <-.
  eexists. split; [reflexivity|].
  cbn zeta in Hq, Hother. rewrite current_stream_guarded in Hq, Hother.
  destruct (blocked_world_same e s w2) as (Bp & Bev & Bf & Bd & Bc & Bpool & Bn).
  assert (queue w5 s
          = queue w s ++ wait_ops (events w !! e) ++ map OpKernel (cb_kernels cb))
    as Hq5.
  { rewrite Hq. change (queue (guarded_world e s w2) s)
      with (queue (blocked_world e s w2) s).
    rewrite queue_blocked_world, decide_True by done. by rewrite <- app_assoc. }
  unfold then_post. fold s. split_and!.
  - unfold leave_guard, queue at 1. simpl. rewrite lookup_insert_eq. simpl.
    rewrite Hq5. by rewrite <- !app_assoc.
  - intros s' Hne. unfold leave_guard, queue at 1. simpl.
    rewrite lookup_insert_ne by done. fold (queue w5 s').
    rewrite Hother by done.
    change (queue (guarded_world e s w2) s')
      with (queue (blocked_world e s w2) s').
    rewrite queue_blocked_world, decide_False by done. done.
  - simpl. rewrite Hp. exact Bp.
  - simpl. rewrite Hev, Hq5. rewrite !length_app, length_map.
    change (events (guarded_world e s w2)) with (events (blocked_world e s w2)).
    rewrite Bev. simpl. f_equal. f_equal. lia.
  - simpl. rewrite Hf. exact Bf.
  - simpl. exact Bd.
  - intros d. trans (current_stream (blocked_world e s w2) d).
    + apply current_stream_leave_guard. simpl. rewrite Hc. done.
    + unfold current_stream. by rewrite Bc.
  - simpl. rewrite Hpool. exact Bpool.
  - simpl. rewrite Hn.
    change (next_event (guarded_world e s w2))
      with (next_event (blocked_world e s w2)).
    rewrite Bn. simpl. lia.
Qed.

(** ** Device progress and the invariants *)

Lemma consistent_empty : consistent empty_world.
Proof.
  unfold consistent. split_and!.
  - intros s. unfold progress, queue. simpl. rewrite !lookup_empty. simpl. lia.
  - intros s j s' p H. unfold queue in H. simpl in H.
    rewrite lookup_empty in H. simpl in H. done.
  - intros s _. unfold queue. simpl. by rewrite lookup_empty.
  - intros d. unfold current_stream. simpl. by rewrite lookup_empty.
Qed.

Lemma dev_step_inv s w w1 :
  dev_step s w = Some w1 →
  ∃ op, queue w s !! progress w s = Some op ∧ op_enabled w op = true ∧
        w1 = set_progress s (S (progress w s)) w.
Proof.
  unfold dev_step. destruct (queue w s !! progress w s) as [op|]; [|done].
  destruct (op_enabled w op) eqn:E; [|done]. intros [= <-]. eauto.
Qed.

Lemma dev_step_consistent s w w1 :
  consistent w → dev_step s w = Some w1 → consistent w1.
Proof.
  intros (Hlen & Hw & Hpool & Hcur) (op & Hop & Hen & ->)%dev_step_inv.
  unfold consistent. split_and!; [| |exact Hpool|exact Hcur].
  - intros s'. rewrite progress_set_progress.
    change (queue (set_progress s (S (progress w s)) w) s') with (queue w s').
    destruct (decide (s = s')) as [<-|]; [|apply Hlen].
    apply lookup_lt_Some in Hop. lia.
  - intros s' j s'' p Hq Hj.
    change (queue (set_progress s (S (progress w s)) w) s') with (queue w s') in Hq.
    rewrite progress_set_progress in Hj. rewrite progress_set_progress.
    assert (p < progress w s'') as Hp.
    { destruct (decide (s = s')) as [<-|].
      - destruct (decide (j = progress w s)) as [->|].
        + rewrite Hop in Hq. injection Hq as ->. simpl in Hen.
          unfold marker_done in Hen. simpl in Hen. by apply Nat.ltb_lt in Hen.
        + apply (Hw s j); [done|lia].
      - by apply (Hw s' j). }
    destruct (decide (s = s'')) as [<-|]; lia.
Qed.

Lemma evolves_refl w : evolves w w.
Proof. unfold evolves. by split_and!. Qed.

Lemma evolves_trans w1 w2 w3 : evolves w1 w2 → evolves w2 w3 → evolves w1 w3.
Proof.
  intros (Hq1 & Hp1 & He1 & Hn1 & Hl1) (Hq2 & Hp2 & He2 & Hn2 & Hl2).
  unfold evolves. split_and!.
  - intros s. trans (queue w2 s); [apply Hq1|apply Hq2].
  - intros s. specialize (Hp1 s). specialize (Hp2 s). lia.
  - intros e He. rewrite He2 by lia. by apply He1.
  - lia.
  - lia.
Qed.

Lemma dev_step_evolves s w w1 : dev_step s w = Some w1 → evolves w w1.
Proof.
  intros (op & Hop & Hen & ->)%dev_step_inv. unfold evolves. split_and!; try done.
  intros s'. rewrite progress_set_progress.
  destruct (decide (s = s')) as [<-|]; lia.
Qed.

Lemma dev_step_same s w w1 :
  dev_step s w = Some w1 →
  queues w1 = queues w ∧ events w1 = events w ∧ next_event w1 = next_event w ∧
  pool_next w1 = pool_next w.
Proof. by intros (op & Hop & Hen & ->)%dev_step_inv. Qed.

Lemma dev_steps_consistent w w' : dev_steps w w' → consistent w → consistent w'.
Proof. induction 1; eauto using dev_step_consistent. Qed.

Lemma dev_steps_evolves w w' : dev_steps w w' → evolves w w'.
Proof.
  induction 1; [apply evolves_refl|].
  eapply evolves_trans; eauto using dev_step_evolves.
Qed.

Lemma dev_steps_same w w' :
  dev_steps w w' →
  queues w' = queues w ∧ events w' = events w ∧ next_event w' = next_event w ∧
  pool_next w' = pool_next w.
Proof.
  induction 1 as [|w s w1 w2 Hs _ (-> & -> & -> & ->)]; [done|].
  by apply dev_step_same in Hs.
Qed.

Lemma dev_steps_queue w w' s : dev_steps w w' → queue w' s = queue w s.
Proof. intros (Hq & _)%dev_steps_same. unfold queue. by rewrite Hq. Qed.

Lemma dev_run_steps sched : ∀ w, dev_steps w (dev_run sched w).
Proof.
  induction sched as [|s sched IH]; intros w; simpl; [constructor|].
  destruct (dev_step s w) as [w1|] eqn:E; simpl; [|apply IH].
  econstructor; [exact E|apply IH].
Qed.

(** Issuing work to one stream keeps the device state consistent. *)
Lemma consistent_issue w w1 s ops :
  consistent w →
  queue w1 s = queue w s ++ ops →
  (∀ s', s' ≠ s → queue w1 s' = queue w s') →
  progress_ w1 = progress_ w →
  s.2 ≤ pool_next w1 → pool_next w ≤ pool_next w1 →
  (∀ d, current_stream w1 d = current_stream w d) →
  consistent w1.
Proof.
  intros (Hlen & Hw & Hpool & Hcur) Hq Hother Hp Hs Hle Hsame.
  assert (∀ s', queue w s' `prefix_of` queue w1 s') as Hpre.
  { intros s'. destruct (decide (s' = s)) as [->|Hne].
    - rewrite Hq. by apply prefix_app_r.
    - by rewrite Hother. }
  unfold consistent. split_and!.
  - intros s'. rewrite (progress_eq _ _ _ Hp).
    specialize (Hlen s'). specialize (Hpre s'). apply prefix_length in Hpre. lia.
  - intros s' j s'' p Hj Hlt. rewrite (progress_eq _ _ _ Hp) in Hlt.
    rewrite (progress_eq _ _ _ Hp). apply (Hw s' j); [|done].
    destruct (Hpre s') as [k Hk]. rewrite Hk in Hj.
    rewrite lookup_app_l in Hj; [done|]. specialize (Hlen s'). lia.
  - intros s' Hlt. rewrite Hother by (intros ->; lia). apply Hpool. lia.
  - intros d. rewrite Hsame. specialize (Hcur d). lia.
Qed.

Lemma then_post_consistent f e ks w w1 :
  consistent w → then_post f e ks w w1 → consistent w1.
Proof.
  intros Hc (Hq & Hother & Hp & _ & _ & _ & Hcur & Hpool & _).
  eapply consistent_issue; eauto; rewrite Hpool; simpl; lia.
Qed.

Lemma then_post_evolves f e ks w w1 : then_post f e ks w w1 → evolves w w1.
Proof.
  intros (Hq & Hother & Hp & He & _ & _ & _ & Hpool & Hn).
  unfold evolves. split_and!.
  - intros s'. destruct (decide (s' = (deviceIndex_ f, S (pool_next w)))) as [->|Hne].
    + rewrite Hq. by apply prefix_app_r.
    + by rewrite Hother.
  - intros s'. by rewrite (progress_eq _ _ _ Hp).
  - intros e' Hlt. rewrite He. rewrite lookup_insert_ne; [done|lia].
  - lia.
  - lia.
Qed.

Lemma then_chain_links calls : ∀ f e w,
  consistent w → cudaEvents_ f = [e] →
  Forall (λ c, returns_or_std (callback c)) calls →
  ∃ futs wN,
    then_chain f calls w = Ok futs wN ∧ length futs = length calls ∧
    consistent wN ∧ evolves w wN ∧
    ∀ i fprev fi c,
      (f :: futs) !! i = Some fprev → futs !! i = Some fi →
      calls !! i = Some c → then_link i w wN fprev fi c.
Proof.
  induction calls as [|c rest IH]; intros f e w Hcons He Hall.
  - exists [], w. split_and!; first [done | apply evolves_refl].
  - apply Forall_cons in Hall as [Hc Hrest].
    set (wb := dev_run (before c) w).
    assert (dev_steps w wb) as Hdev by apply dev_run_steps.
    assert (consistent wb) as Hconsb by eauto using dev_steps_consistent.
    assert (evolves w wb) as Hevb by eauto using dev_steps_evolves.
    destruct (then_spec f e (callback c) (type c) wb He Hc) as (w1 & Hthen & Hpost).
    set (fut := mkFutureNCCL _ _ _ _) in Hthen.
    assert (consistent w1) as Hcons1 by eauto using then_post_consistent.
    assert (evolves wb w1) as Hev1 by eauto using then_post_evolves.
    destruct (IH fut (next_event wb) w1 Hcons1 eq_refl Hrest)
      as (futs & wN & Hchain & Hlen & HconsN & HevN & Hlinks).
    exists (fut :: futs), wN. split_and!.
    + cbn [then_chain]. unfold mbind, Host_bind, bind, modify. fold wb.
      rewrite Hthen, Hchain. reflexivity.
    + simpl. by rewrite Hlen.
    + done.
    + eauto using evolves_trans.
    + intros [|i] fprev fi c' Hprev Hfi Hc'; simpl in *.
      * injection Hprev as <-. injection Hfi as <-. injection Hc' as <-.
        exists e, wb, w1. split_and!; try done. lia.
      * destruct (Hlinks i fprev fi c' Hprev Hfi Hc')
          as (e_prev & wb' & w1' & Hep & Hei & Hevb' & Hconsb' & Hthen' & Hpost'
              & HevN' & Hrec).
        exists e_prev, wb', w1'. split_and!; try done.
        { eauto using evolves_trans. }
        intros _. destruct i as [|i]; [|apply Hrec; lia].
        simpl in Hprev. injection Hprev as <-. simpl in Hep. injection Hep as <-.
        destruct Hpost as (Hq & _ & _ & Hevs & _ & _ & _ & Hpool & Hnext).
        set (s1 := (deviceIndex_ f, S (pool_next wb))) in *.
        set (pos := length (queue wb s1) + length (wait_ops (events wb !! e)) +
                    length (cb_kernels (callback c))) in *.
        assert (events w1 !! next_event wb = Some (s1, pos)) as Hm.
        { rewrite Hevs. apply lookup_insert_eq. }
        destruct Hevb' as (_ & _ & Heb' & _ & Hpoolb').
        destruct HevN as (HqN & _ & HeN & _ & _).
        exists (s1, pos). split_and!.
        -- rewrite Heb' by lia. done.
        -- rewrite HeN by lia. done.
        -- simpl. destruct (HqN s1) as [k ->]. rewrite lookup_app_l.
           ++ rewrite Hq. rewrite !app_assoc. rewrite lookup_app_r.
              ** rewrite !length_app, length_map. fold pos.
                 by rewrite Nat.sub_diag.
              ** rewrite !length_app, length_map. lia.
           ++ rewrite Hq. rewrite !length_app, length_map. simpl. lia.
        -- simpl. unfold s1. intros [= Hx]. lia.
Qed.

Lemma consistentb_sound w : consistentb w = true → consistent w.
Proof.
  unfold consistentb.
  intros [[[Hp Hq]%andb_prop Hpool]%andb_prop Hcur]%andb_prop.
  rewrite forallb_forall in Hp. rewrite forallb_forall in Hq.
  rewrite forallb_forall in Hpool. rewrite forallb_forall in Hcur.
  unfold consistent. split_and!.
  - intros s. unfold progress at 1. destruct (progress_ w !! s) as [n|] eqn:E; simpl; [|lia].
    apply Nat.leb_le, (Hp (s, n)).
    apply list_elem_of_In, elem_of_map_to_list, E.
  - intros s j s' p Hj Hlt. unfold queue in Hj.
    destruct (queues w !! s) as [q|] eqn:E; simpl in Hj; [|done].
    assert (In (s, q) (map_to_list (queues w))) as Hin
      by apply list_elem_of_In, elem_of_map_to_list, E.
    specialize (Hq _ Hin). simpl in Hq. unfold waits_passed in Hq.
    rewrite forallb_forall in Hq.
    apply Nat.ltb_lt. apply (Hq (OpWait s' p)).
    apply list_elem_of_In, list_elem_of_lookup. exists j.
    rewrite lookup_take_lt by done. done.
  - intros s Hlt. unfold queue.
    destruct (queues w !! s) as [q|] eqn:E; simpl; [|done].
    assert (In (s, q) (map_to_list (queues w))) as Hin
      by apply list_elem_of_In, elem_of_map_to_list, E.
    specialize (Hpool _ Hin). simpl in Hpool.
    apply orb_prop in Hpool as [Hle%Nat.leb_le|Hnil%Nat.eqb_eq]; [lia|].
    by destruct q.
  - intros d. unfold current_stream.
    destruct (current_streams w !! d) as [s|] eqn:E; simpl; [|lia].
    apply Nat.leb_le, (Hcur (d, s)).
    apply list_elem_of_In, elem_of_map_to_list, E.
Qed.

(** A wait that has been passed vouches for everything behind it. *)
Lemma passed_wait_satisfied w s q m j :
  consistent w → (q ++ wait_ops m) `prefix_of` queue w s →
  length q + length (wait_ops m) ≤ j → j < progress w s →
  marker_satisfied w m = true.
Proof.
  intros (_ & Hw & _) [k Hk] Hlo Hj. destruct m as [[s0 p]|]; [|done].
  simpl in *. unfold marker_done. simpl. apply Nat.ltb_lt.
  apply (Hw s (length q)); [|lia].
  rewrite Hk, <- app_assoc. rewrite lookup_app_r by lia.
  by rewrite Nat.sub_diag.
Qed.

(** ** Chains of continuations *)

(** A thrown object that no [catch (const std::exception&)] receives
    leaves [then]; the new marker is never recorded. *)
Lemma then_foreign_escapes f e cb ty ex w :
  cudaEvents_ f = [e] → cb_result cb = inr ex → what ex = None →
  ∃ w1, then_ f cb ty w = Throw ex w1 ∧ events w1 = events w.
Proof.
  intros He Hcb Hex.
  rewrite then_unfold, (addCallbackWithStream_unfold _ e) by done.
  set (s := (deviceIndex_ f, S (pool_next w))).
  set (w2 := set_next_event _ _).
  destruct (launch_all_spec (cb_kernels cb) (guarded_world e s w2))
    as (w5 & Hrun & _ & _ & _ & Hev & _).
  unfold then_lambda, try_catch_std, run_callback, mbind, Host_bind, bind.
  rewrite Hrun, Hcb. unfold throw. rewrite Hex.
  eexists. split; [reflexivity|]. simpl. rewrite Hev.
  change (events (guarded_world e s w2)) with (events (blocked_world e s w2)).
  by destruct (blocked_world_same e s w2) as (_ & -> & _).
Qed.

Lemma returns_or_std_dec cb :
  returns_or_std cb ∨ ∃ ex, cb_result cb = inr ex ∧ what ex = None.
Proof.
  unfold returns_or_std. destruct (cb_result cb) as [v|ex]; [by left|].
  destruct (what ex) eqn:E; [left|right]; eauto.
Qed.

(** A chain that was made to its end had no callback whose exception
    left [then]. *)
Lemma then_chain_Ok_std calls : ∀ f e w futs wN,
  cudaEvents_ f = [e] → then_chain f calls w = Ok futs wN →
  Forall (λ c, returns_or_std (callback c)) calls.
Proof.
  induction calls as [|c rest IH]; intros f e w futs wN He Hchain.
  - apply Forall_nil_2.
  - cbn [then_chain] in Hchain.
    unfold mbind, Host_bind, bind, modify in Hchain.
    set (wb := dev_run (before c) w) in Hchain.
    destruct (returns_or_std_dec (callback c)) as [Hc|(ex & Hres & Hex)].
    + apply Forall_cons. split; [done|].
      destruct (then_spec f e (callback c) (type c) wb He Hc) as (w1 & Hthen & _).
      rewrite Hthen in Hchain. cbv beta iota in Hchain.
      destruct (then_chain _ rest w1) as [futs' wN'| |] eqn:Hrest; [|done..].
      eapply IH; [|exact Hrest]. reflexivity.
    + destruct (then_foreign_escapes f e (callback c) (type c) ex wb He Hres Hex)
        as (w1 & Hthen & _).
      by rewrite Hthen in Hchain.
Qed.

(** The world after a [then] whose callback's exception was not caught:
    the wait and the callback's work were issued, nothing was recorded. *)
Lemma then_throw_spec f e cb ty ex w :
  cudaEvents_ f = [e] → cb_result cb = inr ex → what ex = None →
  ∃ w1, then_ f cb ty w = Throw ex w1 ∧
    let s := (deviceIndex_ f, S (pool_next w)) in
    queue w1 s
    = queue w s ++ wait_ops (events w !! e) ++ map OpKernel (cb_kernels cb) ∧
    (∀ s', s' ≠ s → queue w1 s' = queue w s') ∧
    progress_ w1 = progress_ w ∧ events w1 = events w ∧
    faults w1 = faults w ∧ current_device w1 = current_device w ∧
    (∀ d, current_stream w1 d = current_stream w d) ∧
    pool_next w1 = S (pool_next w) ∧ next_event w1 = S (next_event w).
Proof.
  intros He Hcb Hex.
  rewrite then_unfold, (addCallbackWithStream_unfold _ e) by done.
  set (s := (deviceIndex_ f, S (pool_next w))).
  set (w2 := set_next_event _ _).
  destruct (launch_all_spec (cb_kernels cb) (guarded_world e s w2))
    as (w5 & Hrun & Hq & Hother & Hp & Hev & Hf & Hd & Hc & Hpool & Hn).
  unfold then_lambda, try_catch_std, run_callback, mbind, Host_bind, bind.
  rewrite Hrun, Hcb. unfold throw. rewrite Hex.
  eexists. split; [reflexivity|].
  cbn zeta in Hq, Hother. rewrite current_stream_guarded in Hq, Hother.
  destruct (blocked_world_same e s w2) as (Bp & Bev & Bf & Bd & Bc & Bpool & Bn).
  cbn zeta. split_and!.
  - change (queue (leave_guard (blocked_world e s w2) s w5) s) with (queue w5 s).
    rewrite Hq.
    change (queue (guarded_world e s w2) s) with (queue (blocked_world e s w2) s).
    rewrite queue_blocked_world, decide_True by done. by rewrite <- app_assoc.
  - intros s' Hne.
    change (queue (leave_guard (blocked_world e s w2) s w5) s') with (queue w5 s').
    rewrite Hother by done.
    change (queue (guarded_world e s w2) s')
      with (queue (blocked_world e s w2) s').
    rewrite queue_blocked_world, decide_False by done. done.
  - simpl. rewrite Hp. exact Bp.
  - simpl. rewrite Hev. exact Bev.
  - simpl. rewrite Hf. exact Bf.
  - simpl. exact Bd.
  - intros d. trans (current_stream (blocked_world e s w2) d).
    + apply current_stream_leave_guard. simpl. rewrite Hc. done.
    + unfold current_stream. by rewrite Bc.
  - simpl. rewrite Hpool. exact Bpool.
  - simpl. rewrite Hn.
    change (next_event (guarded_world e s w2))
      with (next_event (blocked_world e s w2)).
    rewrite Bn. simpl. lia.
Qed.

Lemma progress_fresh_stream w s :
  consistent w → pool_next w < s.2 → queue w s = [] ∧ progress w s = 0.
Proof.
  intros (Hlen & _ & Hpool & _) Hlt. specialize (Hpool s Hlt).
  specialize (Hlen s). rewrite Hpool in Hlen. simpl in Hlen. split; [done|lia].
Qed.





(** ** Exceptions of the callback *)

(** C2, as the code has it.  When the callback throws an exception
    derived from [std::exception], [then] returns normally; the returned
    future holds a [FutureError] with the exception's message and no
    value.  A later [wait] on it throws that [FutureError].  [value] and
    [constValue] do not: they fail the assertion that the future has a
    value. *)
Theorem then_captures_std_exception f e cb ty ex msg w :
  cudaEvents_ f = [e] → cb_result cb = inr ex → what ex = Some msg →
  ∃ fut w1,
    then_ f cb ty w = Ok fut w1 ∧
    error_ fut = Some (mkFutureError msg) ∧ hasValue fut = false ∧
    (∀ w2, wait fut w2 = Throw (FutureErrorExn (mkFutureError msg)) w2) ∧
    (∀ w2, value fut w2 = Throw (InternalAssertError value_is_none_msg) w2 ∧
           constValue fut w2 = Throw (InternalAssertError value_is_none_msg) w2).
Proof.
  intros He Hcb Hex.
  assert (returns_or_std cb) as Hstd.
  { unfold returns_or_std. rewrite Hcb, Hex. eauto. }
  destruct (then_spec f e cb ty w He Hstd) as (w1 & Hthen & _).
  rewrite Hcb, Hex in Hthen. simpl in Hthen.
  eexists _, w1. split_and!; [exact Hthen|done..].
Qed.

Lemma then_captures_std_exception_witness :
  cudaEvents_ nccl_future = [0] ∧
  cb_result failing_cb = inr (StdException "boom") ∧
  what (StdException "boom") = Some "boom" ∧
  ∃ fut w1,
    then_ nccl_future failing_cb AnyType nccl_world = Ok fut w1 ∧
    error_ fut = Some (mkFutureError "boom") ∧ hasValue fut = false ∧
    (∀ w2, wait fut w2 = Throw (FutureErrorExn (mkFutureError "boom")) w2) ∧
    (∀ w2, value fut w2 = Throw (InternalAssertError value_is_none_msg) w2 ∧
           constValue fut w2 = Throw (InternalAssertError value_is_none_msg) w2).
Proof.
  split_and!; [reflexivity..|].
  exact (then_captures_std_exception nccl_future 0 failing_cb AnyType
           (StdException "boom") "boom" nccl_world eq_refl eq_refl eq_refl).
Defined.

(** C2, as stated, fails.  The callback throws a [std::exception] with
    message boom: [then] returns a future with that error, and [value]
    on this future throws the failed assertion, not the captured error.
    The callback throws an object that is not a [std::exception]: it
    leaves [then]. *)
Lemma then_exception_not_reraised_by_value :
  (∃ fut w1,
     then_ nccl_future failing_cb AnyType nccl_world = Ok fut w1 ∧
     error_ fut = Some (mkFutureError "boom") ∧
     value fut w1 = Throw (InternalAssertError value_is_none_msg) w1 ∧
     value fut w1 ≠ Throw (FutureErrorExn (mkFutureError "boom")) w1) ∧
  (∃ w1, then_ nccl_future foreign_cb AnyType nccl_world
         = Throw (NonStdThrow 42) w1).
Proof.
  split.
  - eexists _, _. split_and!; [vm_compute; reflexivity|reflexivity..|].
    intros [=].
  - eexists. vm_compute. reflexivity.
Qed.

(** ** The member functions one by one *)

Lemma wait_spec f e w :
  cudaEvents_ f = [e] → error_ f = None →
  ∃ w1, wait f w = Ok tt w1 ∧
    let s := current_stream w (deviceIndex_ f) in
    queue w1 s = queue w s ++ wait_ops (events w !! e) ∧
    (∀ s', s' ≠ s → queue w1 s' = queue w s') ∧
    progress_ w1 = progress_ w ∧ events w1 = events w.
Proof.
  intros He Herr. unfold wait. rewrite Herr, He.
  unfold mbind, Host_bind, bind, getCurrentCUDAStream, gets, vector_at,
    CUDAEvent_block, modify. simpl.
  eexists. split; [reflexivity|]. cbn zeta.
  set (s := current_stream w (deviceIndex_ f)).
  destruct (events w !! e) as [[s0 p]|]; simpl.
  - split_and!; try done.
    + rewrite queue_enqueue. by rewrite decide_True.
    + intros s' Hne. rewrite queue_enqueue. by rewrite decide_False.
  - rewrite app_nil_r. by split_and!.
Qed.


(** C4. [completed] answers without changing anything, and it answers
    true exactly when an error is set or the query of the marker does
    not say not-ready; a satisfied marker is such a case. *)
Theorem completed_iff f e w :
  cudaEvents_ f = [e] →
  ∃ b, completed f w = Ok b w ∧
       (b = true ↔ is_Some (error_ f) ∨ event_status w e ≠ cudaErrorNotReady) ∧
       (event_status w e = cudaSuccess → b = true).
Proof.
  intros He. unfold completed. rewrite He.
  destruct (error_ f) as [err|].
  - exists true. split_and!; [done| |done]. split; eauto.
  - unfold mbind, Host_bind, bind, vector_at, cudaEventQuery, gets. simpl.
    eexists. split; [reflexivity|].
    destruct (event_status w e) as [| |code]; simpl; split; try done.
    + split; [intros _; right; done|done].
    + split; [done|]. intros [[? [=]]|H]; done.
    + split; [intros _; right; done|done].
Qed.

Lemma completed_iff_witness :
  cudaEvents_ nccl_future = [0] ∧
  ∃ b, completed nccl_future nccl_world = Ok b nccl_world ∧
       (b = true ↔ is_Some (error_ nccl_future)
                   ∨ event_status nccl_world 0 ≠ cudaErrorNotReady) ∧
       (event_status nccl_world 0 = cudaSuccess → b = true).
Proof.
  split; [reflexivity|].
  exact (completed_iff nccl_future 0 nccl_world eq_refl).
Defined.

(** C5. With an error set, [wait] throws it and does nothing else.
    Without one, [wait] returns at once whether or not the marker is
    satisfied: it only issues a wait for the marker to the current
    stream of the future's device, the device has not moved.  Whatever
    is issued to that stream afterwards is not executed before the marker
    is satisfied. *)
Theorem wait_device_side f e w :
  cudaEvents_ f = [e] →
  match error_ f with
  | Some err => wait f w = Throw (FutureErrorExn err) w
  | None =>
      ∃ w1, wait f w = Ok tt w1 ∧
        let s := current_stream w (deviceIndex_ f) in
        queue w1 s = queue w s ++ wait_ops (events w !! e) ∧
        (∀ s', s' ≠ s → queue w1 s' = queue w s') ∧
        progress_ w1 = progress_ w ∧ events w1 = events w ∧
        ∀ w2, evolves w1 w2 → consistent w2 →
              ∀ j, length (queue w1 s) ≤ j → j < progress w2 s →
                   marker_satisfied w2 (events w !! e) = true
  end.
Proof.
  intros He. destruct (error_ f) as [err|] eqn:Herr.
  - unfold wait. by rewrite Herr.
  - destruct (wait_spec f e w He Herr) as (w1 & Hw & Hq & Hother & Hp & Hev).
    exists w1. cbn zeta in *.
    set (s := current_stream w (deviceIndex_ f)) in *.
    split_and!; try done.
    intros w2 (Hpre & _) Hcons j Hlo Hj.
    apply (passed_wait_satisfied w2 s (queue w s) _ j); try done.
    + rewrite <- Hq. apply Hpre.
    + rewrite Hq, length_app in Hlo. done.
Qed.

Lemma wait_device_side_witness :
  cudaEvents_ nccl_future = [0] ∧
  ∃ w1, wait nccl_future nccl_world = Ok tt w1 ∧
    queue w1 (0%Z, 0) = [OpWait (0%Z, 1) 1] ∧
    progress_ w1 = progress_ nccl_world.
Proof.
  split; [reflexivity|].
  destruct (wait_device_side nccl_future 0 nccl_world eq_refl)
    as (w1 & Hw & Hq & _ & Hp & _).
  exists w1. split_and!; [exact Hw|exact Hq|exact Hp].
Defined.

(** C6, as the code has it.  [markCompleted] stores the result in a
    future whose value is None and fails an assertion on a future that
    has a value; after it has stored a result other than None, every
    further call fails. *)
Theorem markCompleted_once f v w :
  (value_ f = IVNone →
     markCompleted f v w
     = Ok (mkFutureNCCL v (deviceIndex_ f) (cudaEvents_ f) (error_ f)) w) ∧
  (hasValue f = true →
     markCompleted f v w = Throw (InternalAssertError has_value_msg) w) ∧
  (v ≠ IVNone → ∀ f1 w1 v2, markCompleted f v w = Ok f1 w1 →
     markCompleted f1 v2 w1 = Throw (InternalAssertError has_value_msg) w1).
Proof.
  split_and!.
  - intros Hv. unfold markCompleted. by rewrite Hv.
  - unfold hasValue, markCompleted. by destruct (value_ f).
  - intros Hne f1 w1 v2. unfold markCompleted.
    destruct (isNone (value_ f)); [|done]. intros [= <- <-].
    by destruct v.
Qed.

(** C6, as stated, fails: a future that was completed with None, as
    [then] does for a callback that returns None, is completed a second
    time without an error. *)
Lemma markCompleted_succeeds_twice :
  markCompleted unset_future IVNone nccl_world = Ok unset_future nccl_world ∧
  markCompleted unset_future (IVInt 7) nccl_world
  = Ok (mkFutureNCCL (IVInt 7) 0%Z [0] None) nccl_world ∧
  ∃ fut w1,
    then_ nccl_future none_cb AnyType nccl_world = Ok fut w1 ∧
    markCompleted fut (IVInt 7) w1
    = Ok (mkFutureNCCL (IVInt 7) 0%Z [1] None) w1.
Proof.
  split_and!; [reflexivity..|].
  eexists _, _. split; [vm_compute; reflexivity|reflexivity].
Qed.

(** C7. [addCallback] always throws and runs nothing.  A callback is
    run by [addCallbackWithStream], which is given the stream, or by
    [then], which calls it with a stream of the pool; inside, that stream
    is the current one. *)
Theorem addCallback_rejected f callback w :
  addCallback f callback w = Throw (C10Error addCallback_msg) w ∧
  (∀ e stream e', cudaEvents_ f = [e] →
     ∃ w1, addCallbackWithStream f
             (d ← gets current_device; getCurrentCUDAStream d)
             stream [e'] w = Ok stream w1) ∧
  (∀ cb ty,
     then_ f cb ty w =
       addCallbackWithStream f
         (then_lambda (mkFutureNCCL IVNone (deviceIndex_ f) [next_event w] None) cb)
         (deviceIndex_ f, S (pool_next w)) [next_event w]
         (set_next_event (next_event w + 1)
            (set_pool_next (S (pool_next w)) w))).
Proof.
  split_and!; [done| |intros; apply then_unfold].
  intros e stream e' He. rewrite (addCallbackWithStream_unfold _ e) by done.
  unfold mbind, Host_bind, bind, getCurrentCUDAStream, gets.
  rewrite current_stream_guarded. eauto.
Qed.

(** C8. [send], [recv] and [recvAnysource] report a capability error
    for every input; they return no Work Handle and issue nothing to the
    device. *)
Theorem point_to_point_unsupported pg tensors rank tag w :
  send pg tensors rank tag w = Throw (CapabilityError "send") w ∧
  recv pg tensors rank tag w = Throw (CapabilityError "recv") w ∧
  recvAnysource pg tensors tag w = Throw (CapabilityError "recvAnysource") w ∧
  ∀ work w1,
    send pg tensors rank tag w ≠ Ok work w1 ∧
    recv pg tensors rank tag w ≠ Ok work w1 ∧
    recvAnysource pg tensors tag w ≠ Ok work w1.
Proof. by split_and!. Qed.

Lemma synchronizeStreams_spec devices : ∀ evs w,
  ∃ w1, synchronizeStreams devices evs w = Ok tt w1 ∧
        progress_ w1 = progress_ w ∧ events w1 = events w ∧
        ∀ s, queue w s `prefix_of` queue w1 s.
Proof.
  induction devices as [|d ds IH]; intros evs w.
  - exists w. by split_and!.
  - destruct evs as [|e es]; [exists w; by split_and!|].
    cbn [synchronizeStreams].
    unfold mbind, Host_bind, bind, getCurrentCUDAStream, gets,
      CUDAEvent_block, modify.
    set (s := current_stream w d).
    set (w0 := match events w !! e with
               | Some (s0, p) => enqueue s (OpWait s0 p) w
               | None => w
               end).
    destruct (IH es w0) as (w1 & Hrun & Hp & Hev & Hq).
    exists w1. rewrite Hrun. split_and!; try done.
    + rewrite Hp. unfold w0. by destruct (events w !! e) as [[??]|].
    + rewrite Hev. unfold w0. by destruct (events w !! e) as [[??]|].
    + intros s'. trans (queue w0 s'); [|apply Hq].
      unfold w0. destruct (events w !! e) as [[s0 p]|]; [|done].
      rewrite queue_enqueue. destruct (decide (s = s')) as [<-|]; [|done].
      by apply prefix_app_r.
Qed.

Lemma sync_waits_ext w w0 devices : ∀ evs s,
  current_streams w0 = current_streams w → events w0 = events w →
  sync_waits w0 devices evs s = sync_waits w devices evs s.
Proof.
  induction devices as [|d ds IH]; intros [|e es] s Hc He; try done.
  cbn [sync_waits]. unfold current_stream. rewrite Hc, He.
  f_equal. by apply IH.
Qed.

(** What [synchronizeStreams] issues, exactly. *)
Lemma synchronizeStreams_exact devices : ∀ evs w,
  ∃ w1, synchronizeStreams devices evs w = Ok tt w1 ∧
        (∀ s, queue w1 s = queue w s ++ sync_waits w devices evs s) ∧
        progress_ w1 = progress_ w ∧ events w1 = events w ∧
        current_streams w1 = current_streams w ∧
        pool_next w1 = pool_next w ∧
        (consistent w → consistent w1).
Proof.
  induction devices as [|d ds IH]; intros evs w.
  - exists w. split_and!; try done. intros s. by rewrite app_nil_r.
  - destruct evs as [|e es].
    { exists w. split_and!; try done. intros s. by rewrite app_nil_r. }
    cbn [synchronizeStreams sync_waits].
    unfold mbind, Host_bind, bind, getCurrentCUDAStream, gets,
      CUDAEvent_block, modify.
    set (s := current_stream w d).
    set (w0 := match events w !! e with
               | Some (s0, p) => enqueue s (OpWait s0 p) w
               | None => w
               end).
    assert (queue w0 s = queue w s ++ wait_ops (events w !! e)) as Hqs.
    { unfold w0. destruct (events w !! e) as [[s0 p]|]; simpl.
      - rewrite queue_enqueue. by rewrite decide_True.
      - by rewrite app_nil_r. }
    assert (∀ s', s' ≠ s → queue w0 s' = queue w s') as Hqo.
    { intros s' Hne. unfold w0. destruct (events w !! e) as [[s0 p]|]; [|done].
      rewrite queue_enqueue. by rewrite decide_False. }
    assert (progress_ w0 = progress_ w ∧ events w0 = events w ∧
            current_streams w0 = current_streams w ∧
            pool_next w0 = pool_next w) as (Hp0 & He0 & Hc0 & Hn0).
    { unfold w0. by destruct (events w !! e) as [[s0 p]|]. }
    destruct (IH es w0) as (w1 & Hrun & Hq & Hp & Hev & Hc & Hn & Hcons).
    exists w1. rewrite Hrun. split_and!; try congruence.
    + intros s'. rewrite Hq, (sync_waits_ext w w0) by done.
      destruct (decide (s = s')) as [<-|Hne].
      * by rewrite Hqs, app_assoc.
      * by rewrite Hqo.
    + intros Hw. apply Hcons.
      apply (consistent_issue w w0 s (wait_ops (events w !! e))); try done.
      * rewrite Hn0. destruct Hw as (_ & _ & _ & Hcur). apply Hcur.
      * by rewrite Hn0.
      * intros d'. unfold current_stream. by rewrite Hc0.
Qed.

(** The wait for the marker of each device is among what was issued to
    the device's current stream. *)
Lemma sync_waits_lookup w devices : ∀ evs i d e s0 p,
  devices !! i = Some d → evs !! i = Some e →
  events w !! e = Some (s0, p) →
  ∃ j, sync_waits w devices evs (current_stream w d) !! j
       = Some (OpWait s0 p).
Proof.
  induction devices as [|d0 ds IH]; intros [|e0 es] [|i] d e s0 p Hd He Hm;
    try done; simpl in Hd, He.
  - injection Hd as ->. injection He as ->. exists 0.
    cbn [sync_waits]. rewrite decide_True by done. by rewrite Hm.
  - destruct (IH es i d e s0 p Hd He Hm) as [j Hj].
    cbn [sync_waits].
    set (l := if decide (current_stream w d0 = current_stream w d)
              then wait_ops (events w !! e0) else []).
    exists (length l + j). rewrite lookup_app_r by lia.
    by replace (length l + j - length l) with j by lia.
Qed.

Lemma dev_steps_trans w w1 w2 :
  dev_steps w w1 → dev_steps w1 w2 → dev_steps w w2.
Proof.
  induction 1 as [|w s wa wb Hs _ IH]; [done|].
  intros H. econstructor; [exact Hs|]. by apply IH.
Qed.

(** The blocking wait returns only with every marker satisfied, and has
    issued nothing. *)
Lemma block_until_done_spec evs ticks : ∀ w,
  ∃ w1, dev_steps w w1 ∧
    ((block_until_done evs ticks w = Ok true w1 ∧
      forallb (event_done w1) evs = true) ∨
     (block_until_done evs ticks w
      = Throw (StdException "Operation timed out!") w1 ∧
      forallb (event_done w1) evs = false)).
Proof.
  induction ticks as [|t rest IH]; intros w; cbn [block_until_done];
    destruct (forallb (event_done w) evs) eqn:E.
  - exists w. split; [constructor|by left].
  - exists w. split; [constructor|by right].
  - exists w. split; [constructor|by left].
  - destruct (IH (dev_run t w)) as (w1 & Hdev & H).
    exists w1. split; [|done].
    eapply dev_steps_trans; [apply dev_run_steps|exact Hdev].
Qed.

(** C9. The constructor reads NCCL_BLOCKING_WAIT once.  A group built
    in an environment without the flag has [blockingWait_] false, and
    [wait] on the Work Handles of such a group is a device-side wait: it
    returns true at once, whatever the state of the markers and however
    long the timeout, the device has not moved, and what it has issued
    is exactly one wait per device, for the device's marker, on the
    device's current stream; so once the device has executed all of such
    a stream, the marker is satisfied.  With the flag, [blockingWait_]
    is what the flag selects; when it selects blocking, [wait] issues
    nothing to any stream and blocks the host instead: it returns true
    only after the device has satisfied every marker, and throws the
    timeout otherwise; when it does not, the group is the default one. *)
Theorem blocking_wait_default flag_selects env rank size opTimeout :
  env !! NCCL_BLOCKING_WAIT = None →
  let pg := ProcessGroupNCCL_new flag_selects env rank size opTimeout in
  blockingWait_ pg = false ∧
  (∀ devices evs ticks w,
     ∃ w1, WorkNCCL_wait (initWork pg devices evs) ticks w = Ok true w1 ∧
           progress_ w1 = progress_ w ∧ events w1 = events w ∧
           (∀ s, queue w1 s = queue w s ++ sync_waits w devices evs s) ∧
           (∀ s, queue w s `prefix_of` queue w1 s) ∧
           (consistent w → ∀ w', dev_steps w1 w' →
              ∀ i d e, devices !! i = Some d → evs !! i = Some e →
                length (queue w1 (current_stream w d))
                ≤ progress w' (current_stream w d) →
                event_done w' e = true)) ∧
  (∀ v,
     let pg' := ProcessGroupNCCL_new flag_selects
                  (<[NCCL_BLOCKING_WAIT := v]> env) rank size opTimeout in
     blockingWait_ pg' = flag_selects v ∧
     (flag_selects v = false → pg' = pg) ∧
     (flag_selects v = true →
      ∀ devices evs ticks w,
        ∃ w1, dev_steps w w1 ∧ queues w1 = queues w ∧
          ((WorkNCCL_wait (initWork pg' devices evs) ticks w = Ok true w1 ∧
            forallb (event_done w1) evs = true) ∨
           (WorkNCCL_wait (initWork pg' devices evs) ticks w
            = Throw (StdException "Operation timed out!") w1 ∧
            forallb (event_done w1) evs = false)))).
Proof.
  intros Henv pg.
  assert (pg = ProcessGroupNCCL_defaults rank size opTimeout) as Hpg.
  { unfold pg, ProcessGroupNCCL_new, parseNcclBlockingWait. by rewrite Henv. }
  assert (blockingWait_ pg = false) as Hb by by rewrite Hpg.
  split_and!; [done| |].
  - intros devices evs ticks w. unfold WorkNCCL_wait, initWork. simpl.
    rewrite Hb. destruct (synchronizeStreams_exact devices evs w)
      as (w1 & Hrun & Hq & Hp & Hev & _ & _ & Hcons).
    exists w1. unfold mbind, Host_bind, bind. rewrite Hrun.
    split_and!; try done.
    + intros s. rewrite Hq. by apply prefix_app_r.
    + intros Hw w' Hdev i d e Hd He Hall.
      unfold event_done. destruct (dev_steps_same _ _ Hdev) as (_ & -> & _).
      rewrite Hev. destruct (events w !! e) as [[s0 p]|] eqn:Hm; [|done].
      destruct (sync_waits_lookup w devices evs i d e s0 p Hd He Hm)
        as [j Hj].
      set (s := current_stream w d) in *.
      assert (consistent w') as (_ & Hpass & _)
        by eauto using dev_steps_consistent.
      unfold marker_done. simpl. apply Nat.ltb_lt.
      apply (Hpass s (length (queue w s) + j) s0 p).
      * rewrite (dev_steps_queue _ _ _ Hdev), Hq.
        rewrite lookup_app_r by lia.
        by replace (length (queue w s) + j - length (queue w s)) with j by lia.
      * apply lookup_lt_Some in Hj.
        rewrite Hq, length_app in Hall. lia.
  - intros v pg'.
    assert (blockingWait_ pg' = flag_selects v) as Hb'.
    { unfold pg', ProcessGroupNCCL_new, parseNcclBlockingWait.
      rewrite lookup_insert_eq. by destruct (flag_selects v). }
    split_and!; [done| |].
    + intros Hv. rewrite Hpg. unfold pg', ProcessGroupNCCL_new,
        parseNcclBlockingWait. by rewrite lookup_insert_eq, Hv.
    + intros Hv devices evs ticks w. unfold WorkNCCL_wait, initWork. simpl.
      rewrite Hb', Hv.
      destruct (block_until_done_spec evs ticks w) as (w1 & Hdev & H).
      exists w1. split_and!; [done| |done].
      by destruct (dev_steps_same _ _ Hdev) as (-> & _).
Qed.

Lemma blocking_wait_default_witness :
  (∅ : gmap string string) !! NCCL_BLOCKING_WAIT = None ∧
  blockingWait_ (ProcessGroupNCCL_new (String.eqb "1") ∅ 0 2 1800000) = false ∧
  ∃ w1,
    WorkNCCL_wait
      (initWork (ProcessGroupNCCL_new (String.eqb "1") ∅ 0 2 1800000)
         [0%Z] [0]) [] nccl_world = Ok true w1 ∧
    queue w1 (0%Z, 0) = [OpWait (0%Z, 1) 1] ∧
    event_done w1 0 = false.
Proof.
  assert ((∅ : gmap string string) !! NCCL_BLOCKING_WAIT = None) as Henv
    by reflexivity.
  split; [exact Henv|].
  destruct (blocking_wait_default (String.eqb "1") ∅ 0%Z 2%Z 1800000%Z Henv)
    as (Hb & Hwait & _).
  split; [exact Hb|].
  destruct (Hwait [0%Z] [0] [] nccl_world) as (w1 & Hrun & Hp & Hev & Hq & _).
  exists w1. split_and!; [exact Hrun|by rewrite Hq|].
  unfold event_done, marker_done, progress. by rewrite Hev, Hp.
Defined.

(** C10. Both constructors succeed exactly on a list of one marker and
    fail the single-device assertion on any other, so a future never
    holds more or less than one marker. *)
Theorem FutureNCCL_exactly_one_marker value d evs w :
  (length evs = 1 →
     FutureNCCL_of_value value d evs w = Ok (mkFutureNCCL value d evs None) w ∧
     FutureNCCL_of_events d evs w = Ok (mkFutureNCCL IVNone d evs None) w) ∧
  (length evs ≠ 1 →
     FutureNCCL_of_value value d evs w
     = Throw (InternalAssertError single_device_msg) w ∧
     FutureNCCL_of_events d evs w
     = Throw (InternalAssertError single_device_msg) w) ∧
  (∀ f w1,
     FutureNCCL_of_value value d evs w = Ok f w1
     ∨ FutureNCCL_of_events d evs w = Ok f w1 →
     length (cudaEvents_ f) = 1).
Proof.
  unfold FutureNCCL_of_value, FutureNCCL_of_events. split_and!.
  - intros ->. done.
  - intros Hne. apply Nat.eqb_neq in Hne. by rewrite Hne.
  - intros f w1. destruct (length evs =? 1) eqn:E.
    + apply Nat.eqb_eq in E. by intros [[= <- _]|[= <- _]].
    + by intros [|].
Qed.

(** ** The scenario of the specification *)

(** A collective is in flight and the caller chains a callback that
    negates the output: [value] on the new future returns what the
    callback returned, and the stream it was called from now waits for
    the callback's marker. *)
Example then_negate_value :
  ∃ fut w1 w2,
    then_ nccl_future negate_cb ListOfTensorType nccl_world = Ok fut w1 ∧
    queue w1 (0%Z, 2) = [OpWait (0%Z, 1) 1; OpKernel 11; OpKernel 12; OpRecord 1] ∧
    value fut w1 = Ok (IVInt (-1)) w2 ∧
    queue w2 (0%Z, 0) = [OpWait (0%Z, 2) 3].
Proof.
  eexists _, _, _. split_and!; [vm_compute; reflexivity|reflexivity|
    vm_compute; reflexivity|reflexivity].
Qed.

(** With the flag set, a blocking wait returns once the device has
    run the collective, and times out when it never does. *)
Example blocking_wait_polls :
  let pg := ProcessGroupNCCL_new (String.eqb "1")
              {[ NCCL_BLOCKING_WAIT := "1" ]} 0 2 1800000 in
  let work := initWork pg [0%Z] [0] in
  (∃ w1, WorkNCCL_wait work [[(0%Z, 1)]; [(0%Z, 1)]] nccl_world = Ok true w1 ∧
         progress w1 (0%Z, 1) = 2) ∧
  WorkNCCL_wait work [[]; []] nccl_world
  = Throw (StdException "Operation timed out!") nccl_world.
Proof.
  split; [eexists; split; [vm_compute; reflexivity|reflexivity]|].
  vm_compute. reflexivity.
Qed.

(** * Further properties of the continuation future *)

(** ** What a call of [then] touches *)

(** X1. [then] is a host-side call that never waits for the device and
    never touches what others use: whatever the callback does, [then]
    ends (by returning or by the callback's exception), the device has
    not moved, the queues of all streams but the one taken from the pool
    are as before, the events that existed keep their record, and the
    pool and the event allocator have moved by exactly one. *)
Theorem then_frame f e cb ty w :
  cudaEvents_ f = [e] →
  ∃ w1,
    ((∃ fut, then_ f cb ty w = Ok fut w1) ∨
     (∃ ex, then_ f cb ty w = Throw ex w1)) ∧
    progress_ w1 = progress_ w ∧ faults w1 = faults w ∧
    (∀ s', s' ≠ (deviceIndex_ f, S (pool_next w)) → queue w1 s' = queue w s') ∧
    (∀ e', e' < next_event w → events w1 !! e' = events w !! e') ∧
    pool_next w1 = S (pool_next w) ∧ next_event w1 = S (next_event w).
Proof.
  intros He.
  destruct (returns_or_std_dec cb) as [Hcb|(ex & Hres & Hex)].
  - destruct (then_spec f e cb ty w He Hcb)
      as (w1 & Hthen & Hq & Hother & Hp & Hev & Hf & _ & _ & Hpool & Hn).
    exists w1. split_and!; eauto.
    intros e' He'. rewrite Hev, lookup_insert_ne; [done|lia].
  - destruct (then_throw_spec f e cb ty ex w He Hres Hex)
      as (w1 & Hthen & Hq & Hother & Hp & Hev & Hf & _ & _ & Hpool & Hn).
    exists w1. split_and!; eauto. intros e' _. by rewrite Hev.
Qed.

Lemma then_frame_witness :
  cudaEvents_ nccl_future = [0] ∧
  ∃ w1,
    ((∃ fut, then_ nccl_future foreign_cb AnyType nccl_world = Ok fut w1) ∨
     (∃ ex, then_ nccl_future foreign_cb AnyType nccl_world = Throw ex w1)) ∧
    progress_ w1 = progress_ nccl_world ∧ pool_next w1 = 2.
Proof.
  split; [reflexivity|].
  destruct (then_frame nccl_future 0 foreign_cb AnyType nccl_world eq_refl)
    as (w1 & Hthen & Hp & _ & _ & _ & Hpool & _).
  exists w1. split_and!; [exact Hthen|exact Hp|exact Hpool].
Defined.

(** X2. [then] leaves the caller's stream context alone: the stream
    taken from the pool is current only while the callback runs.  After
    the call, whether it returned or the callback's exception left it,
    the current device and the current stream of every device are what
    they were. *)
Theorem then_restores_current_stream f e cb ty w :
  cudaEvents_ f = [e] →
  match then_ f cb ty w with
  | Ok _ w1 | Throw _ w1 =>
      current_device w1 = current_device w ∧
      ∀ d, current_stream w1 d = current_stream w d
  | Undefined => False
  end.
Proof.
  intros He.
  destruct (returns_or_std_dec cb) as [Hcb|(ex & Hres & Hex)].
  - destruct (then_spec f e cb ty w He Hcb)
      as (w1 & -> & _ & _ & _ & _ & _ & Hd & Hc & _). done.
  - destruct (then_throw_spec f e cb ty ex w He Hres Hex)
      as (w1 & -> & _ & _ & _ & _ & _ & Hd & Hc & _). done.
Qed.

Lemma then_restores_current_stream_witness :
  cudaEvents_ nccl_future = [0] ∧
  match then_ nccl_future negate_cb AnyType nccl_world with
  | Ok _ w1 | Throw _ w1 =>
      current_device w1 = current_device nccl_world ∧
      ∀ d, current_stream w1 d = current_stream nccl_world d
  | Undefined => False
  end.
Proof.
  split; [reflexivity|].
  exact (then_restores_current_stream nccl_future 0 negate_cb AnyType
           nccl_world eq_refl).
Defined.

(** ** Values and errors *)

Lemma value_after_wait f w w1 :
  hasValue f = true → wait f w = Ok tt w1 →
  value f w = Ok (value_ f) w1 ∧ constValue f w = Ok (value_ f) w1.
Proof.
  intros Hv Hw. unfold value, constValue. rewrite Hv.
  unfold mbind, Host_bind, bind. simpl. by rewrite Hw.
Qed.

Lemma hasValue_not_None v d evs err :
  v ≠ IVNone → hasValue (mkFutureNCCL v d evs err) = true.
Proof. intros Hne. unfold hasValue. simpl. by destruct v. Qed.

(** X3. A future on which [setError] was called is failed for good and
    never looks at its marker again: in every world [wait] throws the
    error and issues nothing, [completed] answers true, [value] throws
    the error when a value is held and the assertion error when none is;
    a second [setError] replaces the message.  [setError] stores the
    message and touches nothing else: the held value, the device and the
    marker are what they were. *)
Theorem setError_fails_future f msg w :
  wait (setError f msg) w = Throw (FutureErrorExn (mkFutureError msg)) w ∧
  completed (setError f msg) w = Ok true w ∧
  (hasValue f = true →
     value (setError f msg) w
     = Throw (FutureErrorExn (mkFutureError msg)) w) ∧
  (hasValue f = false →
     value (setError f msg) w
     = Throw (InternalAssertError value_is_none_msg) w) ∧
  (∀ msg2, setError (setError f msg) msg2 = setError f msg2) ∧
  hasValue (setError f msg) = hasValue f ∧
  value_ (setError f msg) = value_ f ∧
  deviceIndex_ (setError f msg) = deviceIndex_ f ∧
  cudaEvents_ (setError f msg) = cudaEvents_ f ∧
  error_ (setError f msg) = Some (mkFutureError msg).
Proof.
  split_and!; try done.
  - intros Hv. unfold value. unfold hasValue in *. simpl. by rewrite Hv.
  - intros Hv. unfold value. unfold hasValue in *. simpl. by rewrite Hv.
Qed.

(** X4. What [markCompleted] stores, [value] gives back: on a future
    with one marker, no value and no error, [markCompleted] of a result
    other than None succeeds, and from then on [value] and [constValue]
    return that result in every world, after issuing the wait for the
    marker to the current stream and without the device having moved. *)
Theorem markCompleted_value_round_trip f e v w :
  cudaEvents_ f = [e] → value_ f = IVNone → error_ f = None → v ≠ IVNone →
  ∃ f1, markCompleted f v w = Ok f1 w ∧ hasValue f1 = true ∧
    ∀ w', ∃ w1,
      value f1 w' = Ok v w1 ∧ constValue f1 w' = Ok v w1 ∧
      progress_ w1 = progress_ w' ∧
      queue w1 (current_stream w' (deviceIndex_ f))
      = queue w' (current_stream w' (deviceIndex_ f))
        ++ wait_ops (events w' !! e).
Proof.
  intros He Hv Herr Hne.
  exists (mkFutureNCCL v (deviceIndex_ f) (cudaEvents_ f) (error_ f)).
  split_and!.
  - unfold markCompleted. by rewrite Hv.
  - unfold hasValue. simpl. by destruct v.
  - intros w'.
    destruct (wait_spec (mkFutureNCCL v (deviceIndex_ f) (cudaEvents_ f) (error_ f))
                e w' He Herr) as (w1 & Hw & Hq & _ & Hp & _).
    exists w1.
    destruct (value_after_wait _ w' w1 (hasValue_not_None v _ _ _ Hne) Hw).
    done.
Qed.

Lemma markCompleted_value_round_trip_witness :
  cudaEvents_ unset_future = [0] ∧ value_ unset_future = IVNone ∧
  error_ unset_future = None ∧ IVInt 7 ≠ IVNone ∧
  ∃ f1, markCompleted unset_future (IVInt 7) nccl_world = Ok f1 nccl_world ∧
        ∃ w1, value f1 nccl_world = Ok (IVInt 7) w1.
Proof.
  assert (IVInt 7 ≠ IVNone) as H by done.
  split_and!; [reflexivity..|exact H|].
  destruct (markCompleted_value_round_trip unset_future 0 (IVInt 7) nccl_world
              eq_refl eq_refl eq_refl H) as (f1 & Hm & _ & Hval).
  exists f1. split; [exact Hm|].
  destruct (Hval nccl_world) as (w1 & Hv & _). by exists w1.
Defined.

(** X5. A future constructed over a value and one marker holds that
    value: [value] returns it in every world, and [markCompleted] on it
    is refused whatever the new value.  Constructed over None it is the
    very future the constructor without a value makes. *)
Theorem FutureNCCL_of_value_holds_value v d e w :
  v ≠ IVNone →
  ∃ f, FutureNCCL_of_value v d [e] w = Ok f w ∧
    (∀ w', ∃ w1, value f w' = Ok v w1 ∧ progress_ w1 = progress_ w') ∧
    (∀ v2 w', markCompleted f v2 w'
              = Throw (InternalAssertError has_value_msg) w') ∧
    FutureNCCL_of_value IVNone d [e] w = FutureNCCL_of_events d [e] w.
Proof.
  intros Hne. exists (mkFutureNCCL v d [e] None). split_and!; try done.
  - intros w'.
    destruct (wait_spec (mkFutureNCCL v d [e] None) e w' eq_refl eq_refl)
      as (w1 & Hw & _ & _ & Hp & _).
    exists w1.
    destruct (value_after_wait _ w' w1 (hasValue_not_None v _ _ _ Hne) Hw).
    done.
  - intros v2 w'. unfold markCompleted. simpl. by destruct v.
Qed.

Lemma FutureNCCL_of_value_holds_value_witness :
  IVTensorList [1%Z] ≠ IVNone ∧
  ∃ f, FutureNCCL_of_value (IVTensorList [1%Z]) 0 [0] nccl_world
       = Ok f nccl_world ∧
       ∃ w1, value f nccl_world = Ok (IVTensorList [1%Z]) w1.
Proof.
  assert (IVTensorList [1%Z] ≠ IVNone) as H by done.
  split; [exact H|].
  destruct (FutureNCCL_of_value_holds_value (IVTensorList [1%Z]) 0%Z 0
              nccl_world H) as (f & Hf & Hval & _).
  exists f. split; [exact Hf|].
  destruct (Hval nccl_world) as (w1 & Hv & _). by exists w1.
Defined.

(** X6. The future [then] returns for a callback that returns a value
    other than None holds exactly that value, has no error and lives on
    the parent's device; [value] on it returns the callback's value in
    every world without the device having moved. *)
Theorem then_value_round_trip f e cb ty v w :
  cudaEvents_ f = [e] → cb_result cb = inl v → v ≠ IVNone →
  ∃ fut w1, then_ f cb ty w = Ok fut w1 ∧
    error_ fut = None ∧ deviceIndex_ fut = deviceIndex_ f ∧
    ∀ w', ∃ w2, value fut w' = Ok v w2 ∧ constValue fut w' = Ok v w2 ∧
                progress_ w2 = progress_ w'.
Proof.
  intros He Hcb Hne.
  assert (returns_or_std cb) as Hstd by (unfold returns_or_std; by rewrite Hcb).
  destruct (then_spec f e cb ty w He Hstd) as (w1 & Hthen & _).
  rewrite Hcb in Hthen. eexists _, w1. split_and!; [exact Hthen|done..|].
  intros w'.
  destruct (wait_spec (mkFutureNCCL v (deviceIndex_ f) [next_event w] None)
              (next_event w) w' eq_refl eq_refl) as (w2 & Hw & _ & _ & Hp & _).
  exists w2.
  destruct (value_after_wait _ w' w2 (hasValue_not_None v _ _ _ Hne) Hw).
  done.
Qed.

Lemma then_value_round_trip_witness :
  cudaEvents_ nccl_future = [0] ∧ cb_result negate_cb = inl (IVInt (-1)) ∧
  IVInt (-1) ≠ IVNone ∧
  ∃ fut w1, then_ nccl_future negate_cb AnyType nccl_world = Ok fut w1 ∧
    ∃ w2, value fut w1 = Ok (IVInt (-1)) w2.
Proof.
  assert (IVInt (-1) ≠ IVNone) as H by done.
  split_and!; [reflexivity..|exact H|].
  destruct (then_value_round_trip nccl_future 0 negate_cb AnyType (IVInt (-1))
              nccl_world eq_refl eq_refl H) as (fut & w1 & Hthen & _ & _ & Hval).
  exists fut, w1. split; [exact Hthen|].
  destruct (Hval w1) as (w2 & Hv & _). by exists w2.
Defined.

(** X7. A callback that returns None leaves the returned future unset:
    it has no value and no error, [value] on it fails the assertion in
    every world although [wait] succeeds, and [markCompleted] on it
    still succeeds. *)
Theorem then_none_callback_leaves_unset f e cb ty w :
  cudaEvents_ f = [e] → cb_result cb = inl IVNone →
  ∃ fut w1, then_ f cb ty w = Ok fut w1 ∧
    hasValue fut = false ∧ error_ fut = None ∧
    (∀ w', value fut w' = Throw (InternalAssertError value_is_none_msg) w') ∧
    (∀ w', ∃ w2, wait fut w' = Ok tt w2) ∧
    (∀ v w', ∃ fut', markCompleted fut v w' = Ok fut' w' ∧ value_ fut' = v).
Proof.
  intros He Hcb.
  assert (returns_or_std cb) as Hstd by (unfold returns_or_std; by rewrite Hcb).
  destruct (then_spec f e cb ty w He Hstd) as (w1 & Hthen & _).
  rewrite Hcb in Hthen. eexists _, w1. split_and!; [exact Hthen|done..| |].
  - intros w'.
    destruct (wait_spec (mkFutureNCCL IVNone (deviceIndex_ f) [next_event w] None)
                (next_event w) w' eq_refl eq_refl) as (w2 & Hw & _).
    by exists w2.
  - intros v w'. eexists. split; reflexivity.
Qed.

Lemma then_none_callback_leaves_unset_witness :
  cudaEvents_ nccl_future = [0] ∧ cb_result none_cb = inl IVNone ∧
  ∃ fut w1, then_ nccl_future none_cb AnyType nccl_world = Ok fut w1 ∧
    hasValue fut = false ∧
    value fut w1 = Throw (InternalAssertError value_is_none_msg) w1.
Proof.
  split_and!; [reflexivity..|].
  destruct (then_none_callback_leaves_unset nccl_future 0 none_cb AnyType
              nccl_world eq_refl eq_refl) as (fut & w1 & Hthen & Hv & _ & Hval & _).
  exists fut, w1. split_and!; [exact Hthen|exact Hv|apply Hval].
Defined.

(** X8. [then] looks at nothing of the future it is called on but its
    device and its marker: called on a failed future it runs the
    callback all the same, and the future it returns carries no error,
    so [wait] on the child succeeds where [wait] on the parent throws. *)
Theorem then_does_not_propagate_parent_error f e err cb ty v w :
  cudaEvents_ f = [e] → error_ f = Some err → cb_result cb = inl v →
  (∀ w', wait f w' = Throw (FutureErrorExn err) w') ∧
  (∀ f', deviceIndex_ f' = deviceIndex_ f → cudaEvents_ f' = cudaEvents_ f →
         then_ f' cb ty w = then_ f cb ty w) ∧
  ∃ fut w1, then_ f cb ty w = Ok fut w1 ∧
    error_ fut = None ∧ value_ fut = v ∧
    ∀ w', ∃ w2, wait fut w' = Ok tt w2.
Proof.
  intros He Herr Hcb. split_and!.
  - intros w'. unfold wait. by rewrite Herr.
  - intros f' Hd Hev. unfold then_, addCallbackWithStream. by rewrite Hd, Hev.
  - assert (returns_or_std cb) as Hstd
      by (unfold returns_or_std; by rewrite Hcb).
    destruct (then_spec f e cb ty w He Hstd) as (w1 & Hthen & _).
    rewrite Hcb in Hthen. eexists _, w1. split_and!; [exact Hthen|done..|].
    intros w'.
    destruct (wait_spec (mkFutureNCCL v (deviceIndex_ f) [next_event w] None)
                (next_event w) w' eq_refl eq_refl) as (w2 & Hw & _).
    by exists w2.
Qed.

Lemma then_does_not_propagate_parent_error_witness :
  cudaEvents_ (setError nccl_future "lost") = [0] ∧
  error_ (setError nccl_future "lost") = Some (mkFutureError "lost") ∧
  cb_result negate_cb = inl (IVInt (-1)) ∧
  ∃ fut w1,
    then_ (setError nccl_future "lost") negate_cb AnyType nccl_world
    = Ok fut w1 ∧ error_ fut = None.
Proof.
  split_and!; [reflexivity..|].
  destruct (then_does_not_propagate_parent_error (setError nccl_future "lost")
              0 (mkFutureError "lost") negate_cb AnyType (IVInt (-1))
              nccl_world eq_refl eq_refl eq_refl)
    as (_ & _ & fut & w1 & Hthen & Herr & _).
  exists fut, w1. split; [exact Hthen|exact Herr].
Defined.

(** ** Completion *)

Lemma dev_steps_faults w w' : dev_steps w w' → faults w' = faults w.
Proof.
  induction 1 as [|w s w1 w2 Hs _ ->]; [done|].
  by apply dev_step_inv in Hs as (op & _ & _ & ->).
Qed.

Lemma marker_done_mono w w' m :
  evolves w w' → marker_done w m = true → marker_done w' m = true.
Proof.
  intros (_ & Hp & _). unfold marker_done. rewrite !Nat.ltb_lt.
  specialize (Hp m.1). lia.
Qed.

Lemma event_done_dev_steps w w' e :
  dev_steps w w' → event_done w e = true → event_done w' e = true.
Proof.
  intros Hdev. unfold event_done.
  destruct (dev_steps_same _ _ Hdev) as (_ & -> & _).
  destruct (events w !! e) as [m|]; [|done].
  apply marker_done_mono. by apply dev_steps_evolves.
Qed.

(** X9. Completion is stable: once [completed] has answered true, it
    answers true after any further progress of the device. *)
Theorem completed_stays_true f e w w' :
  cudaEvents_ f = [e] → dev_steps w w' →
  completed f w = Ok true w → completed f w' = Ok true w'.
Proof.
  intros He Hdev. unfold completed. rewrite He.
  destruct (error_ f) as [err|]; [done|].
  unfold mbind, Host_bind, bind, vector_at, cudaEventQuery, gets. simpl.
  unfold event_status. rewrite (dev_steps_faults _ _ Hdev).
  destruct (faults w !! e) as [code|]; [done|].
  destruct (event_done w e) eqn:Hdone; [|done].
  by rewrite (event_done_dev_steps _ _ _ Hdev Hdone).
Qed.

Lemma completed_stays_true_witness :
  cudaEvents_ nccl_future = [0] ∧
  dev_steps demo_chain_end (dev_run demo_schedule demo_chain_end) ∧
  completed nccl_future demo_chain_end = Ok true demo_chain_end ∧
  progress demo_chain_end (0%Z, 2) = 1 ∧
  progress (dev_run demo_schedule demo_chain_end) (0%Z, 2) = 4 ∧
  completed nccl_future (dev_run demo_schedule demo_chain_end)
  = Ok true (dev_run demo_schedule demo_chain_end).
Proof.
  assert (dev_steps demo_chain_end (dev_run demo_schedule demo_chain_end))
    as H by apply dev_run_steps.
  assert (completed nccl_future demo_chain_end = Ok true demo_chain_end)
    as H2 by (vm_compute; reflexivity).
  split_and!; [reflexivity|exact H|exact H2|
               vm_compute; reflexivity|vm_compute; reflexivity|].
  exact (completed_stays_true nccl_future 0 _ _ eq_refl H H2).
Defined.

(** A stream whose remaining entries are all enabled runs them. *)
Lemma dev_run_stream k : ∀ w s,
  progress w s + k ≤ length (queue w s) →
  (∀ j s' p, progress w s ≤ j → queue w s !! j = Some (OpWait s' p) →
             s' ≠ s ∧ marker_done w (s', p) = true) →
  progress (dev_run (replicate k s) w) s = progress w s + k ∧
  dev_steps w (dev_run (replicate k s) w).
Proof.
  induction k as [|k IH]; intros w s Hlen Hen.
  - simpl. split; [lia|constructor].
  - simpl. destruct (queue w s !! progress w s) as [op|] eqn:Hop.
    2:{ apply lookup_ge_None in Hop. lia. }
    assert (op_enabled w op = true) as Hop_en.
    { destruct op as [s' p| |]; try done. simpl.
      by destruct (Hen (progress w s) s' p ltac:(lia) Hop). }
    unfold dev_step at 1 2. rewrite Hop, Hop_en. simpl.
    set (w1 := set_progress s (S (progress w s)) w).
    assert (progress w1 s = S (progress w s)) as Hp1.
    { unfold w1. rewrite progress_set_progress. by rewrite decide_True. }
    destruct (IH w1 s) as [Hprog Hsteps].
    + rewrite Hp1. change (queue w1 s) with (queue w s). lia.
    + intros j s' p Hj Hq. change (queue w1 s) with (queue w s) in Hq.
      rewrite Hp1 in Hj. destruct (Hen j s' p ltac:(lia) Hq) as [Hne Hd].
      split; [done|]. unfold marker_done, w1 in *. simpl in *.
      rewrite progress_set_progress, decide_False by done. done.
    + rewrite Hprog, Hp1. split; [lia|].
      econstructor; [|exact Hsteps].
      unfold dev_step. rewrite Hop, Hop_en. done.
Qed.

(** X10. A continuation of a completed future cannot get stuck.  When
    the marker of the future is already satisfied and the callback
    returns or throws a [std::exception], then from whatever state the
    device has reached after the call, running the stream of the
    callback to its end makes [completed] on the returned future answer
    true; the stream depends on no other. *)
Theorem then_completes_when_stream_runs f e cb ty w :
  consistent w → cudaEvents_ f = [e] → event_done w e = true →
  returns_or_std cb →
  ∃ fut w1, then_ f cb ty w = Ok fut w1 ∧
    let s := (deviceIndex_ f, S (pool_next w)) in
    ∀ w', dev_steps w1 w' →
      let w2 := dev_run (replicate (length (queue w1 s) - progress w' s) s)
                        w' in
      dev_steps w' w2 ∧ progress w2 s = length (queue w1 s) ∧
      completed fut w2 = Ok true w2.
Proof.
  intros Hcons He Hdone Hcb.
  destruct (then_spec f e cb ty w He Hcb) as (w1 & Hthen & Hpost).
  pose proof (then_post_consistent _ _ _ _ _ Hcons Hpost) as Hcons1.
  destruct Hpost as (Hq & Hother & Hp & Hev & Hf & _ & _ & Hpool & Hn).
  set (s := (deviceIndex_ f, S (pool_next w))) in *.
  destruct (progress_fresh_stream w s Hcons) as [Hq0 Hp0]; [simpl; lia|].
  rewrite Hq0 in Hq, Hev. simpl in Hq, Hev.
  set (ks := cb_kernels cb) in *. set (waits := wait_ops (events w !! e)) in *.
  set (pos := length waits + length ks) in *.
  assert (length (queue w1 s) = S pos) as Hlen.
  { rewrite Hq, !length_app, length_map. simpl. unfold pos. lia. }
  eexists _, w1. split; [exact Hthen|]. cbn zeta.
  set (fut := mkFutureNCCL _ _ _ _).
  intros w' Hdev.
  assert (consistent w') as Hcons' by eauto using dev_steps_consistent.
  pose proof (dev_steps_evolves _ _ Hdev) as Hevo.
  pose proof (dev_steps_queue _ _ s Hdev) as Hq'.
  assert (progress w' s ≤ length (queue w1 s)) as Hle.
  { rewrite <- Hq'. by destruct Hcons' as (Hb & _). }
  destruct (dev_run_stream (length (queue w1 s) - progress w' s) w' s)
    as [Hprog Hsteps].
  { rewrite Hq'. lia. }
  { intros j s' p _ Hj. rewrite Hq', Hq in Hj.
    apply list_elem_of_lookup_2 in Hj.
    rewrite !elem_of_app in Hj. destruct Hj as [Hj|[Hj|Hj]].
    - unfold waits, event_done in *.
      destruct (events w !! e) as [[s0 p0]|]; [|by apply elem_of_nil in Hj].
      apply list_elem_of_singleton in Hj. injection Hj as -> ->.
      assert (marker_done w1 (s0, p0) = true) as Hm.
      { unfold marker_done in *. simpl in *.
        by rewrite (progress_eq _ _ _ Hp). }
      split; [|by apply (marker_done_mono w1 w')].
      intros ->. unfold marker_done in Hm. simpl in Hm.
      rewrite (progress_eq _ _ _ Hp), Hp0 in Hm. apply Nat.ltb_lt in Hm. lia.
    - apply list_elem_of_fmap in Hj as (k & [=] & _).
    - by apply list_elem_of_singleton in Hj. }
  assert (progress (dev_run (replicate (length (queue w1 s) - progress w' s) s)
                      w') s = length (queue w1 s)) as Hend by lia.
  split_and!; [exact Hsteps|exact Hend|].
  unfold completed. destruct (error_ fut); [done|].
  unfold mbind, Host_bind, bind, vector_at, cudaEventQuery, gets. simpl.
  unfold event_status. destruct (faults _ !! _); [done|].
  unfold event_done.
  destruct (dev_steps_same _ _ Hsteps) as (_ & -> & _).
  destruct (dev_steps_same _ _ Hdev) as (_ & -> & _).
  rewrite Hev, lookup_insert_eq. unfold marker_done. simpl.
  rewrite Hend, Hlen.
  assert ((pos <? S pos) = true) as -> by (apply Nat.ltb_lt; lia). done.
Qed.

Lemma then_completes_when_stream_runs_witness :
  consistent (dev_run [(0%Z, 1); (0%Z, 1)] nccl_world) ∧
  cudaEvents_ nccl_future = [0] ∧
  event_done (dev_run [(0%Z, 1); (0%Z, 1)] nccl_world) 0 = true ∧
  returns_or_std negate_cb ∧
  ∃ fut w1,
    then_ nccl_future negate_cb AnyType
      (dev_run [(0%Z, 1); (0%Z, 1)] nccl_world) = Ok fut w1 ∧
    let w' := dev_run [(0%Z, 2); (0%Z, 2)] w1 in
    let w2 := dev_run (replicate (length (queue w1 (0%Z, 2))
                                  - progress w' (0%Z, 2)) (0%Z, 2)) w' in
    progress w' (0%Z, 2) = 2 ∧ progress w2 (0%Z, 2) = 4 ∧
    completed fut w2 = Ok true w2.
Proof.
  assert (consistent (dev_run [(0%Z, 1); (0%Z, 1)] nccl_world)) as H1
    by (apply consistentb_sound; vm_compute; reflexivity).
  assert (event_done (dev_run [(0%Z, 1); (0%Z, 1)] nccl_world) 0 = true) as H2
    by (vm_compute; reflexivity).
  assert (returns_or_std negate_cb) as H3 by exact I.
  split_and!; [exact H1|reflexivity|exact H2|exact H3|].
  destruct (then_completes_when_stream_runs nccl_future 0 negate_cb AnyType
              _ H1 eq_refl H2 H3) as (fut & w1 & Hthen & Hrun).
  exists fut, w1. split; [exact Hthen|]. cbn zeta.
  destruct (Hrun (dev_run [(0%Z, 2); (0%Z, 2)] w1) (dev_run_steps _ _))
    as (_ & Hend & Hdone).
  assert (w1 = match then_ nccl_future negate_cb AnyType
                       (dev_run [(0%Z, 1); (0%Z, 1)] nccl_world) with
               | Ok _ w => w
               | _ => empty_world
               end) as Hw1 by (by rewrite Hthen).
  split_and!; [|etrans; [exact Hend|]|exact Hdone].
  - rewrite Hw1. vm_compute. reflexivity.
  - rewrite Hw1. vm_compute. reflexivity.
Defined.

(** ** Chains and fan-out *)

(** In a link from the second call on, the child's marker is satisfied
    only after the parent's. *)
Lemma then_link_marker_order i w wN fprev fi c w' ei eprev :
  then_link i w wN fprev fi c → 1 ≤ i → consistent wN → dev_steps wN w' →
  cudaEvents_ fi = [ei] → cudaEvents_ fprev = [eprev] →
  event_done w' ei = true → event_done w' eprev = true.
Proof.
  intros (e_prev & wb & w1 & Hep & Hei & Hevb & Hconsb & Hthen & Hpost & Hev1
            & Hrec) Hi HconsN Hdev Hfi Hfprev Hdone.
  rewrite Hep in Hfprev. injection Hfprev as <-.
  rewrite Hei in Hfi. injection Hfi as <-.
  destruct (Hrec Hi) as (m & Hm & HmN & _ & _).
  destruct Hpost as (Hq & _ & _ & Hevs & _ & _ & _ & _ & Hnext).
  set (s := (deviceIndex_ fprev, S (pool_next wb))) in *.
  rewrite Hm in Hq, Hevs. destruct m as [s0 p0]. simpl in Hq, Hevs.
  destruct Hev1 as (Hq1 & _ & He1 & _ & _).
  destruct (dev_steps_same _ _ Hdev) as (_ & Hsame & _).
  unfold event_done in *. rewrite Hsame in *. rewrite HmN.
  rewrite He1, Hevs, lookup_insert_eq in Hdone.
  2:{ rewrite Hnext. lia. }
  unfold marker_done in Hdone. simpl in Hdone. apply Nat.ltb_lt in Hdone.
  apply (passed_wait_satisfied w' s (queue wb s) (Some (s0, p0))
           (length (queue wb s) + 1 + length (cb_kernels (callback c)))).
  - eauto using dev_steps_consistent.
  - rewrite (dev_steps_queue _ _ _ Hdev). trans (queue w1 s); [|apply Hq1].
    rewrite Hq. eexists. simpl. rewrite <- app_assoc. reflexivity.
  - simpl. lia.
  - done.
Qed.

(** X11. The markers of a chain are satisfied in the order of the
    chain: after a chain of [then] calls and any further progress of the
    device, when the marker of a future of the chain is satisfied, so is
    the marker of every future that [then] returned before it; waiting
    for the last one is waiting for all. *)
Theorem chain_markers_in_order f e calls w futs wN w' :
  consistent w → cudaEvents_ f = [e] →
  then_chain f calls w = Ok futs wN → dev_steps wN w' →
  ∀ i j fi fj ei ej,
    j ≤ i → futs !! i = Some fi → futs !! j = Some fj →
    cudaEvents_ fi = [ei] → cudaEvents_ fj = [ej] →
    event_done w' ei = true → event_done w' ej = true.
Proof.
  intros Hcons He Hchain Hdev.
  assert (Forall (λ c, returns_or_std (callback c)) calls) as Hall
    by eauto using then_chain_Ok_std.
  destruct (then_chain_links calls f e w Hcons He Hall)
    as (futs0 & wN0 & Hchain0 & Hlen & HconsN & _ & Hlinks).
  rewrite Hchain in Hchain0. injection Hchain0 as <- <-.
  induction i as [|i IH]; intros j fi fj ei ej Hji Hfi Hfj Hei Hej Hdone.
  - assert (j = 0) as -> by lia. rewrite Hfi in Hfj. injection Hfj as <-.
    rewrite Hei in Hej. by injection Hej as <-.
  - destruct (decide (j = S i)) as [->|Hne].
    { rewrite Hfi in Hfj. injection Hfj as <-.
      rewrite Hei in Hej. by injection Hej as <-. }
    assert (is_Some (futs !! i)) as [fprev Hfprev].
    { apply lookup_lt_is_Some. apply lookup_lt_Some in Hfi. lia. }
    assert (is_Some (calls !! S i)) as [c Hc].
    { apply lookup_lt_is_Some. apply lookup_lt_Some in Hfi. lia. }
    pose proof (Hlinks (S i) fprev fi c Hfprev Hfi Hc) as Hlink.
    assert (∃ eprev, cudaEvents_ fprev = [eprev]) as [eprev Heprev].
    { destruct Hlink as (x & _ & _ & Hx & _). eauto. }
    apply (IH j fprev fj eprev ej); [lia|done..|].
    eapply (then_link_marker_order (S i)); eauto. lia.
Qed.

Lemma chain_markers_in_order_witness :
  consistent nccl_world ∧ cudaEvents_ nccl_future = [0] ∧
  then_chain nccl_future demo_calls nccl_world = Ok demo_futures demo_chain_end ∧
  dev_steps demo_chain_end (dev_run demo_schedule demo_chain_end) ∧
  0 ≤ 2 ∧
  demo_futures !! 2 = Some (mkFutureNCCL (IVInt (-1)) 0%Z [3] None) ∧
  demo_futures !! 0 = Some (mkFutureNCCL (IVInt (-1)) 0%Z [1] None) ∧
  event_done (dev_run demo_schedule demo_chain_end) 3 = true ∧
  event_done (dev_run demo_schedule demo_chain_end) 1 = true.
Proof.
  assert (consistent nccl_world) as H1
    by (apply consistentb_sound; vm_compute; reflexivity).
  assert (then_chain nccl_future demo_calls nccl_world
          = Ok demo_futures demo_chain_end) as H2 by (vm_compute; reflexivity).
  assert (dev_steps demo_chain_end (dev_run demo_schedule demo_chain_end))
    as H3 by apply dev_run_steps.
  assert (0 ≤ 2) as H4 by lia.
  assert (demo_futures !! 2 = Some (mkFutureNCCL (IVInt (-1)) 0%Z [3] None))
    as H5 by (vm_compute; reflexivity).
  assert (demo_futures !! 0 = Some (mkFutureNCCL (IVInt (-1)) 0%Z [1] None))
    as H6 by (vm_compute; reflexivity).
  assert (event_done (dev_run demo_schedule demo_chain_end) 3 = true) as H7
    by (vm_compute; reflexivity).
  split_and!; [done..|].
  exact (chain_markers_in_order nccl_future 0 demo_calls nccl_world
           demo_futures demo_chain_end (dev_run demo_schedule demo_chain_end)
           H1 eq_refl H2 H3 2 0 _ _ 3 1 H4 H5 H6 eq_refl eq_refl H7).
Defined.



Lemma dev_run_same sched w :
  next_event (dev_run sched w) = next_event w ∧
  pool_next (dev_run sched w) = pool_next w.
Proof.
  destruct (dev_steps_same _ _ (dev_run_steps sched w)) as (_ & _ & -> & ->).
  done.
Qed.

(** Where the futures of a chain sit: future number [i] holds the
    marker allocated [i] allocations after the start. *)
Lemma then_chain_nth calls : ∀ f e w futs wN,
  cudaEvents_ f = [e] → then_chain f calls w = Ok futs wN →
  length futs = length calls ∧
  next_event wN = next_event w + length calls ∧
  pool_next wN = pool_next w + length calls ∧
  ∀ i fi, futs !! i = Some fi →
    cudaEvents_ fi = [next_event w + i] ∧ deviceIndex_ fi = deviceIndex_ f.
Proof.
  induction calls as [|c rest IH]; intros f e w futs wN He Hchain.
  - injection Hchain as <- <-. simpl. split_and!; [done|lia|lia|].
    by intros i fi.
  - pose proof (then_chain_Ok_std _ _ _ _ _ _ He Hchain) as Hall.
    apply Forall_cons in Hall as [Hc _].
    cbn [then_chain] in Hchain.
    unfold mbind, Host_bind, bind, modify in Hchain.
    set (wb := dev_run (before c) w) in Hchain.
    destruct (dev_run_same (before c) w) as [Hnb Hpb]. fold wb in Hnb, Hpb.
    destruct (then_spec f e (callback c) (type c) wb He Hc)
      as (w1 & Hthen & _ & _ & _ & _ & _ & _ & _ & Hpool & Hn).
    rewrite Hthen in Hchain. cbv beta iota in Hchain.
    destruct (then_chain _ rest w1) as [futs' wN'| |] eqn:Hrest; [|done..].
    injection Hchain as <- <-.
    match type of Hrest with
    | then_chain ?fut _ _ = _ =>
        destruct (IH fut (next_event wb) w1 futs' wN' eq_refl Hrest)
          as (Hlen & HnN & HpN & Hnth)
    end.
    simpl. split_and!; [by rewrite Hlen|lia|lia|].
    intros [|i] fi Hfi; simpl in Hfi.
    + injection Hfi as <-. simpl. split; [|done]. f_equal. lia.
    + destruct (Hnth i fi Hfi) as [Hev Hd]. rewrite Hev, Hd. simpl.
      split; [|done]. f_equal. lia.
Qed.

(** X13. A chain keeps what the constructors establish: every future
    that a chain of [then] calls returns holds exactly one marker and
    lives on the device of the first future; the markers of different
    futures of the chain are different, and none of them is a marker
    that existed before the chain. *)
Theorem then_chain_markers_distinct f e calls w futs wN :
  cudaEvents_ f = [e] → then_chain f calls w = Ok futs wN →
  length futs = length calls ∧
  (∀ i fi, futs !! i = Some fi →
     length (cudaEvents_ fi) = 1 ∧ deviceIndex_ fi = deviceIndex_ f ∧
     ∀ e', e' < next_event w → e' ∉ cudaEvents_ fi) ∧
  (∀ i j fi fj, futs !! i = Some fi → futs !! j = Some fj → i ≠ j →
     cudaEvents_ fi ≠ cudaEvents_ fj).
Proof.
  intros He Hchain.
  destruct (then_chain_nth calls f e w futs wN He Hchain)
    as (Hlen & _ & _ & Hnth).
  split_and!; [done| |].
  - intros i fi Hfi. destruct (Hnth i fi Hfi) as [Hev Hd].
    rewrite Hev. split_and!; [done..|].
    intros e' Hlt Hin. apply list_elem_of_singleton in Hin. lia.
  - intros i j fi fj Hfi Hfj Hne.
    destruct (Hnth i fi Hfi) as [-> _]. destruct (Hnth j fj Hfj) as [-> _].
    intros [=]. lia.
Qed.

Lemma then_chain_markers_distinct_witness :
  cudaEvents_ nccl_future = [0] ∧
  then_chain nccl_future demo_calls nccl_world = Ok demo_futures demo_chain_end ∧
  length demo_futures = 3.
Proof.
  assert (then_chain nccl_future demo_calls nccl_world
          = Ok demo_futures demo_chain_end) as H2 by (vm_compute; reflexivity).
  split_and!; [reflexivity|exact H2|].
  exact (proj1 (then_chain_markers_distinct nccl_future 0 demo_calls nccl_world
                  demo_futures demo_chain_end eq_refl H2)).
Defined.

(** ** Waiting for a continuation *)

Lemma wait_unfold f e w :
  cudaEvents_ f = [e] → error_ f = None →
  wait f w = Ok tt (blocked_world e (current_stream w (deviceIndex_ f)) w).
Proof. intros He Herr. unfold wait. by rewrite Herr, He. Qed.

(** X14. Chaining and then waiting orders the caller's stream behind
    the callback.  After [fut = f.then(cb)] with a callback that returns,
    and [fut.wait()], whatever is issued afterwards to the stream that
    was current is executed only when the device has executed the whole
    stream of the callback (the wait for the marker of [f], the
    callback's work and the record) and when the marker of [f] is
    satisfied. *)
Theorem then_wait_orders_current_stream f e m cb ty v w :
  consistent w → cudaEvents_ f = [e] → events w !! e = Some m →
  cb_result cb = inl v →
  ∃ fut w1 w2,
    then_ f cb ty w = Ok fut w1 ∧ wait fut w1 = Ok tt w2 ∧
    let s := (deviceIndex_ f, S (pool_next w)) in
    let cur := current_stream w (deviceIndex_ f) in
    queue w2 s
    = [OpWait m.1 m.2] ++ map OpKernel (cb_kernels cb)
      ++ [OpRecord (next_event w)] ∧
    progress_ w2 = progress_ w ∧
    ∀ w3, evolves w2 w3 → consistent w3 →
      ∀ j, length (queue w2 cur) ≤ j → j < progress w3 cur →
        length (queue w2 s) ≤ progress w3 s ∧ marker_done w3 m = true.
Proof.
  intros Hcons He Hm Hcb.
  assert (returns_or_std cb) as Hstd by (unfold returns_or_std; by rewrite Hcb).
  destruct (then_spec f e cb ty w He Hstd)
    as (w1 & Hthen & Hq & Hother & Hp & Hev & _ & _ & Hcur & Hpool & Hn).
  rewrite Hcb in Hthen.
  set (fut := mkFutureNCCL v (deviceIndex_ f) [next_event w] None) in *.
  set (s := (deviceIndex_ f, S (pool_next w))) in *.
  set (cur := current_stream w (deviceIndex_ f)).
  destruct (progress_fresh_stream w s Hcons) as [Hq0 _]; [simpl; lia|].
  rewrite Hm, Hq0 in Hq, Hev. destruct m as [s0 p0]. simpl in Hq, Hev.
  set (ks := cb_kernels cb) in *.
  assert (cur ≠ s) as Hne.
  { destruct Hcons as (_ & _ & _ & Hc). specialize (Hc (deviceIndex_ f)).
    fold cur in Hc. intros Heq. rewrite Heq in Hc. simpl in Hc. lia. }
  pose proof (wait_unfold fut (next_event w) w1 eq_refl eq_refl) as Hwait.
  change (deviceIndex_ fut) with (deviceIndex_ f) in Hwait.
  rewrite Hcur in Hwait. fold cur in Hwait.
  set (w2 := blocked_world (next_event w) cur w1) in *.
  assert (queue w2 s = OpWait s0 p0 :: map OpKernel ks ++ [OpRecord (next_event w)])
    as Hq2.
  { unfold w2. rewrite queue_blocked_world, decide_False by done. exact Hq. }
  assert (queue w2 cur
          = queue w1 cur ++ [OpWait s (S (length ks))]) as Hqc.
  { unfold w2. rewrite queue_blocked_world, decide_True by done.
    rewrite Hev, lookup_insert_eq. done. }
  exists fut, w1, w2. split; [exact Hthen|]. split; [exact Hwait|].
  cbn zeta. fold s cur ks. split_and!; [exact Hq2| |].
  { unfold w2. destruct (blocked_world_same (next_event w) cur w1) as (-> & _).
    exact Hp. }
  intros w3 Hev3 Hcons3 j Hlo Hj.
  assert (S (length ks) < progress w3 s) as Hrec.
  { pose proof (passed_wait_satisfied w3 cur (queue w1 cur)
                  (Some (s, S (length ks))) j Hcons3) as Hpass.
    unfold marker_satisfied, marker_done in Hpass. simpl in Hpass.
    apply Nat.ltb_lt, Hpass; [|rewrite Hqc, length_app in Hlo; simpl in *; lia|done].
    rewrite <- Hqc. apply Hev3. }
  split.
  - rewrite Hq2. simpl. rewrite length_app, length_map. simpl. lia.
  - apply (passed_wait_satisfied w3 s [] (Some (s0, p0)) (S (length ks)) Hcons3);
      [|simpl; lia|done].
    simpl. trans (queue w2 s); [|apply Hev3]. rewrite Hq2.
    by apply (prefix_app_r [OpWait s0 p0] [OpWait s0 p0]).
Qed.

Lemma then_wait_orders_current_stream_witness :
  consistent nccl_world ∧ cudaEvents_ nccl_future = [0] ∧
  events nccl_world !! 0 = Some ((0%Z, 1), 1) ∧
  cb_result negate_cb = inl (IVInt (-1)) ∧
  ∃ fut w1 w2,
    then_ nccl_future negate_cb AnyType nccl_world = Ok fut w1 ∧
    wait fut w1 = Ok tt w2 ∧
    queue w2 (0%Z, 2)
    = [OpWait (0%Z, 1) 1; OpKernel 11; OpKernel 12; OpRecord 1].
Proof.
  assert (consistent nccl_world) as H1
    by (apply consistentb_sound; vm_compute; reflexivity).
  assert (events nccl_world !! 0 = Some ((0%Z, 1), 1)) as H2
    by (vm_compute; reflexivity).
  split_and!; [exact H1|reflexivity|exact H2|reflexivity|].
  destruct (then_wait_orders_current_stream nccl_future 0 ((0%Z, 1), 1)
              negate_cb AnyType (IVInt (-1)) nccl_world H1 eq_refl H2 eq_refl)
    as (fut & w1 & w2 & Hthen & Hwait & Hq & _).
  exists fut, w1, w2. split_and!; [exact Hthen|exact Hwait|exact Hq].
Defined.

(** X15. The calls of the future keep the device state consistent and
    only add to it: from a consistent state, [then] (whether it returns
    or the callback's exception leaves it) and [wait] end in a
    consistent state in which every queue extends what it was, the
    device has executed exactly what it had ([progress_] is unchanged)
    and every event that existed has the record it had. *)
Theorem future_calls_keep_consistent f e w :
  consistent w → cudaEvents_ f = [e] →
  (∀ cb ty,
     match then_ f cb ty w with
     | Ok _ w1 | Throw _ w1 => consistent w1 ∧ evolves w w1 ∧ progress_ w1 = progress_ w
     | Undefined => False
     end) ∧
  match wait f w with
  | Ok _ w1 | Throw _ w1 => consistent w1 ∧ evolves w w1 ∧ progress_ w1 = progress_ w
  | Undefined => False
  end.
Proof.
  intros Hcons He. split.
  - intros cb ty.
    destruct (returns_or_std_dec cb) as [Hcb|(ex & Hres & Hex)].
    + destruct (then_spec f e cb ty w He Hcb) as (w1 & -> & Hpost).
      split_and!; eauto using then_post_consistent, then_post_evolves.
      by destruct Hpost as (_ & _ & Hp & _).
    + destruct (then_throw_spec f e cb ty ex w He Hres Hex)
        as (w1 & -> & Hq & Hother & Hp & Hev & _ & _ & Hcur & Hpool & Hn).
      split_and!; [| |exact Hp].
      * eapply consistent_issue; eauto; rewrite Hpool; simpl; lia.
      * unfold evolves. split_and!; [| |by intros; rewrite Hev|lia|lia].
        -- intros s'.
           destruct (decide (s' = (deviceIndex_ f, S (pool_next w)))) as [->|Hne].
           ++ rewrite Hq. by apply prefix_app_r.
           ++ by rewrite Hother.
        -- intros s'. by rewrite (progress_eq _ _ _ Hp).
  - destruct (error_ f) as [err|] eqn:Herr.
    + unfold wait. rewrite Herr. split_and!; [done|apply evolves_refl|done].
    + rewrite (wait_unfold f e w He Herr).
      set (cur := current_stream w (deviceIndex_ f)).
      destruct (blocked_world_same e cur w) as (Bp & Bev & _ & _ & Bc & Bpool & Bn).
      split_and!; [| |exact Bp].
      * eapply (consistent_issue w _ cur (wait_ops (events w !! e))); eauto.
        -- rewrite queue_blocked_world. by rewrite decide_True.
        -- intros s' Hne. rewrite queue_blocked_world. by rewrite decide_False.
        -- rewrite Bpool. destruct Hcons as (_ & _ & _ & Hc). apply Hc.
        -- rewrite Bpool. lia.
        -- intros d. unfold current_stream. by rewrite Bc.
      * unfold evolves. split_and!.
        -- intros s'. rewrite queue_blocked_world.
           destruct (decide (cur = s')) as [<-|]; [by apply prefix_app_r|done].
        -- intros s'. by rewrite (progress_eq _ _ _ Bp).
        -- intros e' _. by rewrite Bev.
        -- rewrite Bn. lia.
        -- rewrite Bpool. lia.
Qed.

Lemma future_calls_keep_consistent_witness :
  consistent nccl_world ∧ cudaEvents_ nccl_future = [0] ∧
  match wait nccl_future nccl_world with
  | Ok _ w1 | Throw _ w1 => consistent w1 ∧ evolves nccl_world w1 ∧
                            progress_ w1 = progress_ nccl_world
  | Undefined => False
  end.
Proof.
  assert (consistent nccl_world) as H1
    by (apply consistentb_sound; vm_compute; reflexivity).
  split_and!; [exact H1|reflexivity|].
  exact (proj2 (future_calls_keep_consistent nccl_future 0 nccl_world H1 eq_refl)).
Defined.
